(** * A model of [src/sync-vehicles.js], the CarLink24 vehicle sync script

    JavaScript strings are sequences of UTF-16 code units, modelled as
    [list Z].  Numbers produced by the script ([parseInt] of a digit
    string) are modelled as integers [Z].  The browser, the database and
    the image pipeline are oracles collected in the record [Env]; the
    script's mutable [syncLog] and its effects are threaded as explicit
    state. *)

From Stdlib Require Import ZArith List String Ascii Bool Lia.
Import ListNotations.
Open Scope Z_scope.

(** ** JavaScript strings and values *)

Definition jstr := list Z.

(** An ASCII Rocq string literal as a JS string. *)
Definition js (s : string) : jstr :=
  map (fun a => Z.of_nat (nat_of_ascii a)) (list_ascii_of_string s).

Fixpoint jstr_eqb (a b : jstr) : bool :=
  match a, b with
  | [], [] => true
  | x :: a', y :: b' => (x =? y) && jstr_eqb a' b'
  | _, _ => false
  end.

Lemma jstr_eqb_eq a b : jstr_eqb a b = true <-> a = b.
Proof.
  revert b; induction a as [|x a IH]; intros [|y b]; simpl;
    try (split; congruence).
  rewrite andb_true_iff, Z.eqb_eq, IH. split; [intros [-> ->]; auto|].
  intros H; inversion H; auto.
Qed.

(** [s.startsWith(p)] *)
Fixpoint startsWith (s p : jstr) : bool :=
  match p, s with
  | [], _ => true
  | c :: p', d :: s' => (c =? d) && startsWith s' p'
  | _ :: _, [] => false
  end.

(** [s.includes(p)] *)
Fixpoint includes (s p : jstr) : bool :=
  match s with
  | [] => startsWith [] p
  | _ :: s' => startsWith s p || includes s' p
  end.

(** The values the script handles: [undefined], [null], booleans,
    integral numbers, [NaN] and strings. *)
Inductive jsval :=
| JUndef
| JNull
| JBool (b : bool)
| JNum (n : Z)
| JNaN
| JStr (s : jstr).

Definition truthy (v : jsval) : bool :=
  match v with
  | JUndef | JNull | JNaN => false
  | JBool b => b
  | JNum n => negb (n =? 0)
  | JStr s => negb (jstr_eqb s [])
  end.

Definition digit_char (d : Z) : Z := 48 + d.

(** Decimal digits of a non-negative integer, most significant first. *)
Fixpoint digits_of (fuel : nat) (n : Z) (acc : jstr) : jstr :=
  match fuel with
  | O => acc
  | S f =>
      let acc' := digit_char (n mod 10) :: acc in
      if n <? 10 then acc' else digits_of f (n / 10) acc'
  end.

(** [String(n)] for an integer [n]: plain decimal digits. JavaScript
    prints them so for [|n| < 10^21] and switches to exponent notation
    from [10^21] on. *)
Definition Z_to_jstr (n : Z) : jstr :=
  let fuel := S (Z.to_nat (Z.log2_up (Z.abs n + 1))) in
  if n <? 0 then 45 :: digits_of fuel (- n) [] else digits_of fuel n [].

(** [String(v)], as used by template literals. *)
Definition toString (v : jsval) : jstr :=
  match v with
  | JUndef => js "undefined"
  | JNull => js "null"
  | JBool true => js "true"
  | JBool false => js "false"
  | JNum n => Z_to_jstr n
  | JNaN => js "NaN"
  | JStr s => s
  end.

(** [v || ''] inside a template literal. *)
Definition orEmpty (v : jsval) : jstr :=
  if truthy v then toString v else [].

(** ** UTF-8 encoding (Node's [hash.update(str)] encodes strings as UTF-8) *)

Definition utf8_cp (cp : Z) : list Z :=
  if cp <? 128 then [cp]
  else if cp <? 2048 then
    [192 + Z.shiftr cp 6; 128 + Z.land cp 63]
  else if cp <? 65536 then
    [224 + Z.shiftr cp 12; 128 + Z.land (Z.shiftr cp 6) 63; 128 + Z.land cp 63]
  else
    [240 + Z.shiftr cp 18; 128 + Z.land (Z.shiftr cp 12) 63;
     128 + Z.land (Z.shiftr cp 6) 63; 128 + Z.land cp 63].

Definition is_high (u : Z) : bool := (55296 <=? u) && (u <=? 56319).
Definition is_low (u : Z) : bool := (56320 <=? u) && (u <=? 57343).

(** Lone surrogates are replaced by U+FFFD. *)
Fixpoint utf8_encode (s : jstr) : list Z :=
  match s with
  | [] => []
  | u :: rest =>
      if is_high u then
        match rest with
        | v :: rest' =>
            if is_low v then
              utf8_cp (65536 + Z.shiftl (u - 55296) 10 + (v - 56320))
                ++ utf8_encode rest'
            else utf8_cp 65533 ++ utf8_encode rest
        | [] => utf8_cp 65533
        end
      else if is_low u then utf8_cp 65533 ++ utf8_encode rest
      else utf8_cp u ++ utf8_encode rest
  end.

(** ** MD5 ([crypto.createHash('md5')]), over bytes given as [Z] *)

Module MD5.

Definition mask32 (x : Z) : Z := Z.land x (Z.ones 32).

Definition rotl (x : Z) (c : Z) : Z :=
  mask32 (Z.lor (Z.shiftl x c) (Z.shiftr x (32 - c))).

Definition lnot32 (x : Z) : Z := Z.lxor x (Z.ones 32).

Definition K : list Z :=
  [0xd76aa478; 0xe8c7b756; 0x242070db; 0xc1bdceee;
   0xf57c0faf; 0x4787c62a; 0xa8304613; 0xfd469501;
   0x698098d8; 0x8b44f7af; 0xffff5bb1; 0x895cd7be;
   0x6b901122; 0xfd987193; 0xa679438e; 0x49b40821;
   0xf61e2562; 0xc040b340; 0x265e5a51; 0xe9b6c7aa;
   0xd62f105d; 0x02441453; 0xd8a1e681; 0xe7d3fbc8;
   0x21e1cde6; 0xc33707d6; 0xf4d50d87; 0x455a14ed;
   0xa9e3e905; 0xfcefa3f8; 0x676f02d9; 0x8d2a4c8a;
   0xfffa3942; 0x8771f681; 0x6d9d6122; 0xfde5380c;
   0xa4beea44; 0x4bdecfa9; 0xf6bb4b60; 0xbebfbc70;
   0x289b7ec6; 0xeaa127fa; 0xd4ef3085; 0x04881d05;
   0xd9d4d039; 0xe6db99e5; 0x1fa27cf8; 0xc4ac5665;
   0xf4292244; 0x432aff97; 0xab9423a7; 0xfc93a039;
   0x655b59c3; 0x8f0ccc92; 0xffeff47d; 0x85845dd1;
   0x6fa87e4f; 0xfe2ce6e0; 0xa3014314; 0x4e0811a1;
   0xf7537e82; 0xbd3af235; 0x2ad7d2bb; 0xeb86d391].

Definition shift (i : nat) : Z :=
  match Nat.div i 16, Nat.modulo i 4 with
  | 0%nat, 0%nat => 7 | 0%nat, 1%nat => 12 | 0%nat, 2%nat => 17 | 0%nat, _ => 22
  | 1%nat, 0%nat => 5 | 1%nat, 1%nat => 9 | 1%nat, 2%nat => 14 | 1%nat, _ => 20
  | 2%nat, 0%nat => 4 | 2%nat, 1%nat => 11 | 2%nat, 2%nat => 16 | 2%nat, _ => 23
  | _, 0%nat => 6 | _, 1%nat => 10 | _, 2%nat => 15 | _, _ => 21
  end.

Record state := mkState { sa : Z; sb : Z; sc : Z; sd : Z }.

Definition init : state := mkState 0x67452301 0xefcdab89 0x98badcfe 0x10325476.

(** Little-endian 32-bit words of a 64-byte block. *)
Fixpoint words (blk : list Z) : list Z :=
  match blk with
  | b0 :: b1 :: b2 :: b3 :: rest =>
      (b0 + Z.shiftl b1 8 + Z.shiftl b2 16 + Z.shiftl b3 24) :: words rest
  | _ => []
  end.

Definition round (M : list Z) (st : state) (i : nat) : state :=
  let '(mkState a b c d) := st in
  let '(f, g) :=
    match Nat.div i 16 with
    | 0%nat => (Z.lor (Z.land b c) (Z.land (lnot32 b) d), i)
    | 1%nat => (Z.lor (Z.land d b) (Z.land (lnot32 d) c), Nat.modulo (5 * i + 1) 16)
    | 2%nat => (Z.lxor b (Z.lxor c d), Nat.modulo (3 * i + 5) 16)
    | _ => (Z.lxor c (Z.lor b (lnot32 d)), Nat.modulo (7 * i) 16)
    end in
  let f' := mask32 (f + a + nth i K 0 + nth g M 0) in
  mkState d (mask32 (b + rotl f' (shift i))) b c.

Definition block (st : state) (blk : list Z) : state :=
  let M := words blk in
  let '(mkState a b c d) := fold_left (round M) (seq 0 64) st in
  mkState (mask32 (sa st + a)) (mask32 (sb st + b))
          (mask32 (sc st + c)) (mask32 (sd st + d)).

Fixpoint le_bytes (n : nat) (x : Z) : list Z :=
  match n with
  | O => []
  | S n' => Z.land x 255 :: le_bytes n' (Z.shiftr x 8)
  end.

Definition pad (msg : list Z) : list Z :=
  let len := List.length msg in
  let zeros := Nat.modulo (119 - Nat.modulo len 64) 64 in
  msg ++ [128] ++ repeat 0 zeros ++ le_bytes 8 (Z.of_nat len * 8).

Fixpoint blocks (fuel : nat) (l : list Z) : list (list Z) :=
  match fuel with
  | O => []
  | S f => match l with [] => [] | _ => firstn 64 l :: blocks f (skipn 64 l) end
  end.

Definition hex_digit (d : Z) : Z := if d <? 10 then 48 + d else 87 + d.

Definition hex_byte (b : Z) : jstr := [hex_digit (Z.shiftr b 4); hex_digit (Z.land b 15)].

(** [digest('hex')]: 32 lowercase hex digits. *)
Definition md5_hex (msg : list Z) : jstr :=
  let p := pad msg in
  let '(mkState a b c d) := fold_left block (blocks (List.length p) p) init in
  flat_map hex_byte (le_bytes 4 a ++ le_bytes 4 b ++ le_bytes 4 c ++ le_bytes 4 d).

End MD5.

(** ** [generateFingerprint] *)

Definition bar : jstr := js "|".

Definition generateFingerprint (make model mileage firstRegistration : jsval) : jstr :=
  let str := orEmpty make ++ bar ++ orEmpty model ++ bar ++ orEmpty mileage ++ bar
             ++ orEmpty firstRegistration in
  MD5.md5_hex (utf8_encode str).

Example md5_empty : MD5.md5_hex [] = js "d41d8cd98f00b204e9800998ecf8427e".
Proof. vm_compute. reflexivity. Qed.

Example fingerprint_bmw :
  generateFingerprint (JStr (js "BMW")) (JStr (js "320d")) (JNum 85000) (JStr (js "202103"))
  = js "340c3f097964ef1b8be801ff7633eeda".
Proof. vm_compute. reflexivity. Qed.

Example fingerprint_bmw' :
  generateFingerprint (JStr (js "BMW")) (JStr (js "320d")) (JNum 85001) (JStr (js "202103"))
  = js "0090ddf655acfb4e011f1292984786a4".
Proof. vm_compute. reflexivity. Qed.

(** ** String helpers *)

(** Code units matched by [\s] and stripped by [trim()]. *)
Definition is_ws (c : Z) : bool :=
  existsb (Z.eqb c) [9; 10; 11; 12; 13; 32; 160; 5760; 8232; 8233; 8239; 8287; 12288; 65279]
  || ((8192 <=? c) && (c <=? 8202)).

(** [\d] *)
Definition is_digit (c : Z) : bool := (48 <=? c) && (c <=? 57).

Fixpoint drop_ws (s : jstr) : jstr :=
  match s with
  | c :: s' => if is_ws c then drop_ws s' else s
  | [] => []
  end.

Definition trim (s : jstr) : jstr := rev (drop_ws (rev (drop_ws s))).

(** [s.split(sep)] for a one-code-unit separator. *)
Fixpoint split_on (sep : Z) (s : jstr) : list jstr :=
  match s with
  | [] => [[]]
  | c :: s' =>
      let parts := split_on sep s' in
      if c =? sep then [] :: parts
      else match parts with
           | p :: ps => (c :: p) :: ps
           | [] => [[c]]
           end
  end.

(** [parts.join(sep)] *)
Fixpoint join (sep : Z) (parts : list jstr) : jstr :=
  match parts with
  | [] => []
  | [p] => p
  | p :: ps => p ++ sep :: join sep ps
  end.

Definition digit_val (c : Z) : Z := c - 48.

(** [parseInt(d, 10)] for a non-empty string of decimal digits. *)
Definition digits_value (d : jstr) : Z :=
  fold_left (fun acc c => acc * 10 + digit_val c) d 0.

Fixpoint take_digits (s : jstr) : jstr :=
  match s with
  | c :: s' => if is_digit c then c :: take_digits s' else []
  | [] => []
  end.

Fixpoint drop_digits (s : jstr) : jstr :=
  match s with
  | c :: s' => if is_digit c then drop_digits s' else s
  | [] => []
  end.

(** ** The field parsers *)

(** [parseNumeric]: [parseInt] of the digits, as an exact integer. The
    JavaScript result is a double, equal to this integer below [2^53]
    and rounded above it. *)
Definition parseNumeric (value : jstr) : jsval :=
  if jstr_eqb value [] then JNull
  else
    let cleaned := filter is_digit value in
    if jstr_eqb cleaned [] then JNull else JNum (digits_value cleaned).

(** Leftmost match of [/(\d{2})\/(\d{4})/]: the two groups. *)
Fixpoint find_reg (s : jstr) : option (jstr * jstr) :=
  match s with
  | [] => None
  | a :: rest =>
      match rest with
      | b :: sl :: c :: d :: e :: f :: _ =>
          if is_digit a && is_digit b && (sl =? 47) && is_digit c && is_digit d
             && is_digit e && is_digit f
          then Some ([a; b], [c; d; e; f])
          else find_reg rest
      | _ => find_reg rest
      end
  end.

(** [parseRegistration] *)
Definition parseRegistration (regString : jstr) : jsval :=
  if jstr_eqb regString [] then JNull
  else match find_reg regString with
       | Some (mm, yyyy) => JStr (yyyy ++ mm)
       | None => JStr regString
       end.

Definition knownMakes : list jstr :=
  [js "Mercedes-Benz"; js "BMW"; js "Audi"; js "Volkswagen"; js "Porsche"; js "Ford";
   js "Opel"; js "Toyota"; js "Honda"; js "Mazda"; js "Nissan"; js "Hyundai"; js "Kia";
   js "Volvo"; js "Skoda"; js "Seat"; js "Renault"; js "Peugeot";
   js "Citro" ++ [235] ++ js "n"; js "Fiat"; js "Alfa Romeo"; js "Jaguar";
   js "Land Rover"; js "Range Rover"; js "Mini"; js "Tesla"; js "Lexus"; js "Infiniti"].

(** The first known make that prefixes the title. *)
Fixpoint first_make (makes : list jstr) (title : jstr) : option jstr :=
  match makes with
  | [] => None
  | m :: ms => if startsWith title m then Some m else first_make ms title
  end.

(** [parseMakeModel]: the pair (make, model). *)
Definition parseMakeModel (title : jstr) : jsval * jsval :=
  if jstr_eqb title [] then (JNull, JNull)
  else match first_make knownMakes title with
       | Some make => (JStr make, JStr (trim (skipn (List.length make) title)))
       | None =>
           let parts := split_on 32 title in
           (JStr (hd [] parts), JStr (join 32 (tl parts)))
       end.

(** Leftmost match of [/(\d+)\s*UNIT/]: the digits. *)
Fixpoint find_num_unit (unit s : jstr) : option jstr :=
  match s with
  | [] => None
  | c :: s' =>
      if is_digit c && startsWith (drop_ws (drop_digits s)) unit then Some (take_digits s)
      else find_num_unit unit s'
  end.

(** [parsePower]: the pair (kw, ps). *)
Definition parsePower (powerString : jstr) : jsval * jsval :=
  if jstr_eqb powerString [] then (JNull, JNull)
  else
    let num m := match m with Some d => JNum (digits_value d) | None => JNull end in
    (num (find_num_unit (js "kW") powerString), num (find_num_unit (js "PS") powerString)).

(** ** Translation maps and [normalizeValue]

    A translation map is an object literal: its own entries in insertion
    order (no key is an array index, so this is also the order of
    [Object.entries]).  A property read [map[value]] that finds no own
    entry continues on [Object.prototype]. *)

Definition table := list (jstr * jstr).

(** The properties every object literal inherits from [Object.prototype]. *)
Definition objectProtoNames : list jstr :=
  [js "constructor"; js "__defineGetter__"; js "__defineSetter__"; js "hasOwnProperty";
   js "__lookupGetter__"; js "__lookupSetter__"; js "isPrototypeOf";
   js "propertyIsEnumerable"; js "toString"; js "valueOf"; js "__proto__";
   js "toLocaleString"].

(** The value of a property read on a map: an own string value, or an
    inherited member of [Object.prototype] (a function, or the prototype
    object itself for [__proto__]), both of them truthy. *)
Inductive prop :=
| PStr (s : jstr)
| PProto (name : jstr).

Definition prop_truthy (p : prop) : bool :=
  match p with
  | PStr s => negb (jstr_eqb s [])
  | PProto _ => true
  end.

(** [map[key]]; [None] is [undefined]. *)
Definition get (map : table) (key : jstr) : option prop :=
  match find (fun kv => jstr_eqb (fst kv) key) map with
  | Some (_, v) => Some (PStr v)
  | None => if existsb (jstr_eqb key) objectProtoNames then Some (PProto key) else None
  end.

Section Normalize.

(** [String.prototype.toLowerCase] of the host. *)
Variable toLowerCase : jstr -> jstr.

(** [normalizeValue]; [None] is [null]. *)
Definition normalizeValue (value : jstr) (map : table) : option prop :=
  if jstr_eqb value [] then None
  else
    let inexact :=
      let lower := toLowerCase value in
      match find (fun kv => jstr_eqb (toLowerCase (fst kv)) lower) map with
      | Some (_, v) => Some (PStr v)
      | None =>
          match find (fun kv => includes (toLowerCase value) (toLowerCase (fst kv))) map with
          | Some (_, v) => Some (PStr v)
          | None => None
          end
      end in
    match get map value with
    | Some p => if prop_truthy p then Some p else inexact
    | None => inexact
    end.

Definition colorMap : table :=
  [(js "Wei" ++ [223], js "WHITE"); (js "Schwarz", js "BLACK"); (js "Silber", js "SILVER");
   (js "Grau", js "GRAY"); (js "Rot", js "RED"); (js "Blau", js "BLUE");
   (js "Gr" ++ [252] ++ js "n", js "GREEN"); (js "Braun", js "BROWN");
   (js "Beige", js "BEIGE"); (js "Gold", js "GOLD"); (js "Orange", js "ORANGE");
   (js "Gelb", js "YELLOW"); (js "Violett", js "PURPLE"); (js "Bronze", js "BRONZE");
   (js "Anthrazit", js "ANTHRACITE")].

Definition interiorMaterialMap : table :=
  [(js "Leder", js "LEATHER"); (js "Vollleder", js "FULL_LEATHER");
   (js "Teilleder", js "PARTIAL_LEATHER"); (js "Stoff", js "FABRIC");
   (js "Alcantara", js "ALCANTARA"); (js "Velours", js "VELOUR")].

(** [c] matches the ASCII lowercase letter [l] under the [i] flag. *)
Definition ci_eq (c l : Z) : bool := (c =? l) || (c =? l - 32).

Fixpoint ci_prefix (s p : jstr) : bool :=
  match p, s with
  | [], _ => true
  | l :: p', c :: s' => ci_eq c l && ci_prefix s' p'
  | _ :: _, [] => false
  end.

(** The text after a match of [/\s*metallic\s*/i] starting here. *)
Definition metallic_at (s : jstr) : option jstr :=
  let s1 := drop_ws s in
  if ci_prefix s1 (js "metallic") then Some (drop_ws (skipn 8 s1)) else None.

(** [s.replace(/\s*metallic\s*/i, '')]: the leftmost match is removed. *)
Fixpoint remove_metallic (s : jstr) : jstr :=
  match s with
  | [] => []
  | c :: s' =>
      match metallic_at s with
      | Some rest => rest
      | None => c :: remove_metallic s'
      end
  end.

(** [parseColor]: the pair (color, metallic). *)
Definition parseColor (colorString : jstr) : option prop * bool :=
  if jstr_eqb colorString [] then (None, false)
  else
    let metallic := includes (toLowerCase colorString) (js "metallic") in
    let colorOnly := trim (remove_metallic colorString) in
    (normalizeValue colorOnly colorMap, metallic).

Definition opt_truthy (o : option prop) : bool :=
  match o with Some p => prop_truthy p | None => false end.

(** [parseInterior]: the pair (material, color). *)
Definition parseInterior (interiorString : jstr) : option prop * option prop :=
  if jstr_eqb interiorString [] then (None, None)
  else
    let parts := map trim (split_on 44 interiorString) in
    fold_left
      (fun '(material, color) part =>
         let material := if opt_truthy material then material
                         else normalizeValue part interiorMaterialMap in
         let color := if opt_truthy color then color else normalizeValue part colorMap in
         (material, color))
      parts (None, None).

End Normalize.

Definition fuelTypeMap : table :=
  [(js "Benzin", js "PETROL"); (js "Diesel", js "DIESEL"); (js "Elektro", js "ELECTRIC");
   (js "Hybrid", js "HYBRID"); (js "Hybrid (Benzin)", js "HYBRID_PETROL");
   (js "Hybrid (Benzin/Elektro)", js "HYBRID_PETROL");
   (js "Hybrid (Diesel)", js "HYBRID_DIESEL"); (js "Plug-in-Hybrid", js "PLUGIN_HYBRID");
   (js "LPG", js "LPG"); (js "CNG", js "CNG"); (js "Erdgas", js "CNG");
   (js "Wasserstoff", js "HYDROGEN")].

Definition gearboxMap : table :=
  [(js "Automatik", js "AUTOMATIC"); (js "Schaltgetriebe", js "MANUAL");
   (js "Schaltung", js "MANUAL"); (js "Halbautomatik", js "SEMI_AUTOMATIC")].

Definition bodyTypeMap : table :=
  [(js "Limousine", js "SEDAN"); (js "Kombi", js "WAGON"); (js "SUV", js "SUV");
   (js "Gel" ++ [228] ++ js "ndewagen", js "SUV"); (js "Coup" ++ [233], js "COUPE");
   (js "Coupe", js "COUPE"); (js "Sportwagen/Coup" ++ [233], js "SPORTS_COUPE");
   (js "Sportwagen", js "SPORTS"); (js "Cabrio", js "CONVERTIBLE");
   (js "Cabriolet", js "CONVERTIBLE"); (js "Roadster", js "ROADSTER");
   (js "Kleinwagen", js "COMPACT"); (js "Van", js "VAN"); (js "Van/Minibus", js "MPV");
   (js "Pickup", js "PICKUP"); (js "Andere", js "OTHER")].

Definition driveTypeMap : table :=
  [(js "Verbrennungsmotor", js "ICE"); (js "Elektro", js "ELECTRIC");
   (js "Elektroantrieb", js "ELECTRIC"); (js "Hybrid", js "HYBRID");
   (js "Hybridantrieb", js "HYBRID"); (js "Plug-in-Hybrid", js "PLUGIN_HYBRID")].

Definition climateMap : table :=
  [(js "Klimaanlage", js "AUTOMATIC"); (js "Klimaautomatik", js "AUTOMATIC");
   (js "2-Zonen-Klimaautomatik", js "TWO_ZONE"); (js "3-Zonen-Klimaautomatik", js "THREE_ZONE");
   (js "4-Zonen-Klimaautomatik", js "FOUR_ZONE"); (js "Manuelle Klimaanlage", js "MANUAL")].

(** ** [generateSlug] *)

Definition is_slug_char (c : Z) : bool := ((97 <=? c) && (c <=? 122)) || is_digit c.

(** [.replace(/[^a-z0-9]+/g, '-')] *)
Fixpoint dash_runs (in_run : bool) (s : jstr) : jstr :=
  match s with
  | [] => []
  | c :: s' =>
      if is_slug_char c then c :: dash_runs false s'
      else if in_run then dash_runs true s' else 45 :: dash_runs true s'
  end.

Definition drop_lead_dash (s : jstr) : jstr :=
  match s with
  | c :: s' => if c =? 45 then s' else s
  | [] => []
  end.

(** [.replace(/^-|-$/g, '')] *)
Definition strip_dashes (s : jstr) : jstr := rev (drop_lead_dash (rev (drop_lead_dash s))).

(** [generateSlug], with the host's lowercasing and the four random bytes
    (as hex) that [crypto.randomBytes] produced for this call. *)
Definition generateSlug (toLowerCase : jstr -> jstr) (random : jstr)
  (make model year : jsval) : jstr :=
  let yr := if truthy year then toString year else js "unknown" in
  let base := strip_dashes (dash_runs false
                (toLowerCase (toString make ++ [45] ++ toString model ++ [45] ++ yr))) in
  base ++ [45] ++ random.

(** ** Scraped data and listings *)

(** The object returned by the detail page's [page.evaluate]: [findValue]
    yields [''] for a missing label; [price] and [subtitle] stay
    [undefined] ([None]) when not found. *)
Record RawData := mkRaw {
  r_title : jstr; r_price : option jstr; r_mileage : jstr; r_power : jstr;
  r_fuelType : jstr; r_transmission : jstr; r_firstRegistration : jstr; r_owners : jstr;
  r_condition : jstr; r_bodyType : jstr; r_series : jstr; r_variant : jstr;
  r_hubraum : jstr; r_driveType : jstr; r_seats : jstr; r_doors : jstr;
  r_emissionClass : jstr; r_emissionSticker : jstr; r_hu : jstr; r_climate : jstr;
  r_parkingAssist : jstr; r_airbags : jstr; r_colorManufacturer : jstr; r_color : jstr;
  r_interior : jstr; r_weight : jstr; r_cylinders : jstr; r_tankSize : jstr;
  r_subtitle : option jstr; r_features : list jstr; r_images : list jstr }.

(** The listing object built by [scrapeListingDetails]; the constant
    fields ([currency], [price_type], [source], [sync_source], [published],
    [featured]) and the timestamp [synced_at] are left out. [None] is
    [null]. *)
Record Listing := mkListing {
  slug : jstr; fingerprint : jstr; make : jsval; model : jsval;
  model_description : option jstr; subtitle : option jstr; series : option jstr;
  variant : option jstr; price : jsval; mileage : jsval; first_registration : jsval;
  fuel : option prop; gearbox : option prop; power_kw : jsval; power_ps : jsval;
  cubic_capacity : jsval; cylinders : jsval; body_type : option prop;
  drive_type : option prop; num_doors : jsval; num_seats : jsval;
  exterior_color : option prop; exterior_color_manufacturer : option jstr;
  metallic : bool; interior_color : option prop; interior_material : option prop;
  climate : option prop; airbags : option jstr; emission_class : option jstr;
  emission_sticker : option jstr; hu_valid_until : option jstr;
  num_previous_owners : jsval; accident_damaged : option bool; condition : jstr;
  tank_size : jsval; weight : jsval; features : list jstr; images : list jstr;
  source_url : jstr }.

(** What [processAndUploadImage] does for one image: it throws, or it
    returns the result of [uploadImage] (the public URL, or [null] when
    the upload reported an error). *)
Inductive ImageOutcome :=
| ImgThrow (msg : jstr)
| ImgReturn (url : option jstr).

(** The outside world of a run. *)
Record Env := mkEnv {
  toLowerCase : jstr -> jstr;
  randomHex : jstr -> jstr;                  (** slug suffix, per listing URL *)
  searchListings : jstr -> jstr + list jstr; (** dealer URL: error, or detail URLs *)
  loadDetails : jstr -> jstr + RawData;      (** detail URL: error, or scraped data *)
  processAndUploadImage : jstr -> jstr -> nat -> ImageOutcome; (** url, slug, index *)
  insertListing : Listing -> option jstr;    (** [Some msg]: insert error *)
  existingRows : option (list jstr);         (** [None]: query error *)
  maxListingsOverride : Z }.                 (** [parseInt(MAX_LISTINGS_OVERRIDE || '0')] *)

Record Dealer := mkDealer { dealerName : jstr; dealerUrl : jstr }.

Record Config := mkConfig {
  enabled : bool; maxListingsPerDealer : Z; maxTotalListings : Z; dealers : list Dealer }.

(** ** Run state: [syncLog] and the observable effects *)

Inductive SyncError :=
| ErrInsert (msg listingSlug : jstr)
| ErrScrape (url msg : jstr)
| ErrDealer (url msg : jstr).

Record SyncLog := mkSyncLog {
  sl_dealers : list (jstr * jstr); listingsFound : nat; listingsNew : nat;
  listingsSkipped : nat; imagesUploaded : nat; errors : list SyncError }.

(** [visited]: detail pages navigated to; [imageCalls]: invocations of
    the image pipeline (URL, index). *)
Record St := mkSt { syncLog : SyncLog; visited : list jstr; imageCalls : list (jstr * nat) }.

Definition emptyLog : SyncLog := mkSyncLog [] 0 0 0 0 [].
Definition st0 : St := mkSt emptyLog [] [].

Definition upd_log (f : SyncLog -> SyncLog) (st : St) : St :=
  mkSt (f (syncLog st)) (visited st) (imageCalls st).

Definition addError (e : SyncError) : St -> St :=
  upd_log (fun l => mkSyncLog (sl_dealers l) (listingsFound l) (listingsNew l)
                      (listingsSkipped l) (imagesUploaded l) (errors l ++ [e])).
Definition incSkipped : St -> St :=
  upd_log (fun l => mkSyncLog (sl_dealers l) (listingsFound l) (listingsNew l)
                      (S (listingsSkipped l)) (imagesUploaded l) (errors l)).
Definition incImages : St -> St :=
  upd_log (fun l => mkSyncLog (sl_dealers l) (listingsFound l) (listingsNew l)
                      (listingsSkipped l) (S (imagesUploaded l)) (errors l)).
Definition incNew : St -> St :=
  upd_log (fun l => mkSyncLog (sl_dealers l) (listingsFound l) (S (listingsNew l))
                      (listingsSkipped l) (imagesUploaded l) (errors l)).
Definition addFound (n : nat) : St -> St :=
  upd_log (fun l => mkSyncLog (sl_dealers l) (listingsFound l + n) (listingsNew l)
                      (listingsSkipped l) (imagesUploaded l) (errors l)).
Definition addDealer (d : Dealer) : St -> St :=
  upd_log (fun l => mkSyncLog (sl_dealers l ++ [(dealerName d, dealerUrl d)])
                      (listingsFound l) (listingsNew l) (listingsSkipped l)
                      (imagesUploaded l) (errors l)).
Definition visit (url : jstr) (st : St) : St :=
  mkSt (syncLog st) (visited st ++ [url]) (imageCalls st).
Definition callImage (url : jstr) (i : nat) (st : St) : St :=
  mkSt (syncLog st) (visited st) (imageCalls st ++ [(url, i)]).

(** ** [scrapeListingDetails], [scrapeDealer] and [main] *)

Inductive DetailResult :=
| DThrow (msg : jstr)            (** the call threw *)
| DSkipped (title : jstr)        (** [{ skipped: true, title }] *)
| DListing (l : Listing).

(** [x || null] for a string field. *)
Definition nz (s : jstr) : option jstr := if jstr_eqb s [] then None else Some s.

Definition optnz (o : option jstr) : option jstr :=
  match o with Some s => nz s | None => None end.

Definition has (set : list jstr) (x : jstr) : bool := existsb (jstr_eqb x) set.

(** The image loop: [imgs] are the images kept by the cap, [i] the index
    of the first of them, [acc] the uploaded URLs so far. *)
Fixpoint processImages (env : Env) (slg : jstr) (imgs : list jstr) (i : nat)
  (st : St) (acc : list jstr) : St * list jstr :=
  match imgs with
  | [] => (st, acc)
  | u :: us =>
      let st1 := callImage u i st in
      match processAndUploadImage env u slg i with
      | ImgReturn (Some v) =>
          if negb (jstr_eqb v []) then processImages env slg us (S i) (incImages st1) (acc ++ [v])
          else processImages env slg us (S i) st1 acc
      | ImgReturn None | ImgThrow _ => processImages env slg us (S i) st1 acc
      end
  end.

Definition maxImages : nat := 10.

Definition scrapeListingDetails (env : Env) (existingFingerprints : list jstr)
  (url : jstr) (st : St) : St * DetailResult :=
  let st1 := visit url st in
  match loadDetails env url with
  | inl msg => (st1, DThrow msg)
  | inr raw =>
      let '(mk, md) := parseMakeModel (r_title raw) in
      let firstRegistration := parseRegistration (r_firstRegistration raw) in
      let mil := parseNumeric (r_mileage raw) in
      let fp := generateFingerprint mk md mil firstRegistration in
      if has existingFingerprints fp then (st1, DSkipped (r_title raw))
      else
        let lower := toLowerCase env in
        let '(color, met) := parseColor lower (r_color raw) in
        let '(interiorMaterial, interiorColor) := parseInterior lower (r_interior raw) in
        let '(powerKw, powerPs) := parsePower (r_power raw) in
        let year := match firstRegistration with
                    | JStr s => if truthy firstRegistration then JStr (firstn 4 s) else JNull
                    | _ => JNull
                    end in
        let slg := generateSlug lower (randomHex env url) mk md year in
        let kept := firstn (Nat.min (List.length (r_images raw)) maxImages) (r_images raw) in
        let '(st2, imageUrls) := processImages env slg kept 0 st1 [] in
        let cond := r_condition raw in
        (st2, DListing (mkListing
          slg fp mk md (optnz (r_subtitle raw)) (optnz (r_subtitle raw))
          (nz (r_series raw)) (nz (r_variant raw))
          (match r_price raw with Some p => parseNumeric p | None => JNull end)
          mil firstRegistration
          (normalizeValue lower (r_fuelType raw) fuelTypeMap)
          (normalizeValue lower (r_transmission raw) gearboxMap)
          powerKw powerPs (parseNumeric (r_hubraum raw)) (parseNumeric (r_cylinders raw))
          (normalizeValue lower (r_bodyType raw) bodyTypeMap)
          (normalizeValue lower (r_driveType raw) driveTypeMap)
          (parseNumeric (r_doors raw)) (parseNumeric (r_seats raw))
          color (nz (r_colorManufacturer raw)) met interiorColor interiorMaterial
          (normalizeValue lower (r_climate raw) climateMap)
          (nz (r_airbags raw)) (nz (r_emissionClass raw)) (nz (r_emissionSticker raw))
          (nz (r_hu raw)) (parseNumeric (r_owners raw))
          (if includes (lower cond) (js "unfallfrei") then Some false else None)
          (if includes (lower cond) (js "neuwagen") then js "NEW" else js "USED")
          (parseNumeric (r_tankSize raw)) (parseNumeric (r_weight raw))
          (r_features raw) imageUrls url))
  end.

(** [array.slice(0, k)] for an integral [k]. *)
Definition slice0 {A} (l : list A) (k : Z) : list A :=
  if 0 <=? k then firstn (Z.to_nat k) l
  else firstn (List.length l - Z.to_nat (- k)) l.

(** The loop over one dealer's detail URLs, with its per-listing catch. *)
Fixpoint scrapeListings (env : Env) (existingFingerprints : list jstr) (urls : list jstr)
  (st : St) (listings : list Listing) : St * list Listing :=
  match urls with
  | [] => (st, listings)
  | u :: us =>
      let '(st1, r) := scrapeListingDetails env existingFingerprints u st in
      match r with
      | DSkipped _ => scrapeListings env existingFingerprints us (incSkipped st1) listings
      | DListing l => scrapeListings env existingFingerprints us st1 (listings ++ [l])
      | DThrow msg => scrapeListings env existingFingerprints us (addError (ErrScrape u msg) st1) listings
      end
  end.

Definition scrapeDealer (env : Env) (cfg : Config) (existingFingerprints : list jstr)
  (url : jstr) (st : St) : St * list Listing :=
  match searchListings env url with
  | inl msg => (addError (ErrDealer url msg) st, [])
  | inr listingUrls =>
      scrapeListings env existingFingerprints
        (slice0 listingUrls (maxListingsPerDealer cfg)) st []
  end.

(** The dealer loop of [main], with the global cap. *)
Fixpoint dealerLoop (env : Env) (cfg : Config) (existingFingerprints : list jstr)
  (ds : list Dealer) (allListings : list Listing) (st : St) : St * list Listing :=
  match ds with
  | [] => (st, allListings)
  | d :: ds' =>
      let '(st2, ls) := scrapeDealer env cfg existingFingerprints (dealerUrl d) (addDealer d st) in
      let all' := allListings ++ ls in
      let st3 := addFound (List.length ls) st2 in
      if Z.of_nat (List.length all') >=? maxTotalListings cfg
      then (st3, slice0 all' (maxTotalListings cfg))
      else dealerLoop env cfg existingFingerprints ds' all' st3
  end.

Fixpoint insertAll (env : Env) (ls : list Listing) (st : St) : St :=
  match ls with
  | [] => st
  | l :: ls' =>
      match insertListing env l with
      | None => insertAll env ls' (incNew st)
      | Some msg => insertAll env ls' (addError (ErrInsert msg (slug l)) st)
      end
  end.

Definition getExistingFingerprints (env : Env) : list jstr :=
  match existingRows env with Some rows => rows | None => [] end.

Definition applyOverride (env : Env) (cfg : Config) : Config :=
  if 0 <? maxListingsOverride env
  then mkConfig (enabled cfg) (maxListingsPerDealer cfg) (maxListingsOverride env) (dealers cfg)
  else cfg.

Inductive RunOutcome :=
| Disabled
| Completed (st : St) (inserted : list Listing).  (** final state; the listings passed to insertion *)

Definition main (env : Env) (cfg0 : Config) : RunOutcome :=
  if negb (enabled cfg0) then Disabled
  else
    let cfg := applyOverride env cfg0 in
    let existingFingerprints := getExistingFingerprints env in
    let '(st, allListings) := dealerLoop env cfg existingFingerprints (dealers cfg) [] st0 in
    Completed (insertAll env allListings st) allListings.

(** ** The browser side: [page.evaluate] callbacks

    The callbacks read the page through [document.querySelectorAll],
    whose results come in document order; the page is modelled by those
    results. *)

(** [dealerUrl.match(/customerId=(\d+)/)]: the digits of the leftmost match. *)
Fixpoint find_customer_id (s : jstr) : option jstr :=
  match s with
  | [] => None
  | _ :: s' =>
      if startsWith s (js "customerId=") && negb (jstr_eqb (take_digits (skipn 11 s)) [])
      then Some (take_digits (skipn 11 s))
      else find_customer_id s'
  end.

Definition searchPrefix : jstr :=
  js "https://suchen.mobile.de/fahrzeuge/search.html?s=Car&vc=Car&sid=".

(** The [searchUrl] that [scrapeDealer] navigates to. *)
Definition searchUrlOf (dealerUrl : jstr) : jstr :=
  match find_customer_id dealerUrl with
  | Some id => searchPrefix ++ id
  | None => dealerUrl
  end.

(** A link of the search page: its [href] attribute (tested by the CSS
    selector) and its resolved [link.href]. *)
Record Anchor := mkAnchor { hrefAttr : jstr; href : jstr }.

(** [href.match(/[?&]id=(\d+)/)]: the digits of the leftmost match. *)
Fixpoint find_id (s : jstr) : option jstr :=
  match s with
  | [] => None
  | c :: s' =>
      if ((c =? 63) || (c =? 38)) && startsWith s' (js "id=")
         && negb (jstr_eqb (take_digits (skipn 3 s')) [])
      then Some (take_digits (skipn 3 s'))
      else find_id s'
  end.

Definition detailsPrefix : jstr := js "https://suchen.mobile.de/fahrzeuge/details.html?id=".

(** The search page's callback: the [{url, id}] objects, given as pairs,
    for the links of [a[href*="/fahrzeuge/details.html?id="]]; [seenIds]
    is the set built so far. *)
Fixpoint extractListingUrls (seenIds : list jstr) (links : list Anchor) : list (jstr * jstr) :=
  match links with
  | [] => []
  | link :: rest =>
      if includes (hrefAttr link) (js "/fahrzeuge/details.html?id=") then
        match find_id (href link) with
        | Some id =>
            if has seenIds id then extractListingUrls seenIds rest
            else (detailsPrefix ++ id, id) :: extractListingUrls (id :: seenIds) rest
        | None => extractListingUrls seenIds rest
        end
      else extractListingUrls seenIds rest
  end.

(** [details.title = document.title.split('für')[0].trim() || '']; the
    first piece of [split] is the text before the first occurrence. *)
Fixpoint before_sep (sep s : jstr) : jstr :=
  match s with
  | [] => []
  | c :: s' => if startsWith s sep then [] else c :: before_sep sep s'
  end.

Definition fuer : jstr := js "f" ++ [252] ++ js "r".

Definition titleOf (documentTitle : jstr) : jstr := trim (before_sep fuer documentTitle).

(** A [dt] element: its text and its [nextElementSibling] as
    (tag name, text), if any. *)
Record Dt := mkDt { dtText : jstr; nextSibling : option (jstr * jstr) }.

(** [findValue(labelText)] over the page's [dt] elements. *)
Definition findValue (dts : list Dt) (labelText : jstr) : jstr :=
  match find (fun e => jstr_eqb (trim (dtText e)) labelText) dts with
  | Some dt =>
      match nextSibling dt with
      | Some (tagName, text) =>
          if jstr_eqb tagName (js "DD") then
            let value := trim text in
            if negb (jstr_eqb value []) && (List.length value <? 150)%nat then value else []
          else []
      | None => []
      end
  | None => []
  end.

(** An [article]: the text of its first [h2, h3] (if any) and the texts of
    its [li] elements. *)
Record Article := mkArticle { heading : option jstr; items : list jstr }.

(** [details.features] *)
Definition featuresOf (articles : list Article) : list jstr :=
  flat_map (fun art =>
    match heading art with
    | Some h =>
        if includes h (js "Ausstattung") then
          flat_map (fun li =>
            let text := trim li in
            if negb (jstr_eqb text []) && (1 <? List.length text)%nat
               && (List.length text <? 80)%nat
            then [text] else []) (items art)
        else []
    | None => []
    end) articles.

Definition imageMarker : jstr := js "img.classistatic.de/api/v1/mo-prod/images/".

(** [details.images] from the [src] of the page's [img] elements;
    [seenImages] is the set built so far. *)
Fixpoint extractImages (seenImages : list jstr) (srcs : list jstr) : list jstr :=
  match srcs with
  | [] => []
  | src :: rest =>
      if negb (includes src imageMarker) then extractImages seenImages rest
      else
        let baseUrl := hd [] (split_on 63 src) in
        if has seenImages baseUrl then extractImages seenImages rest
        else (baseUrl ++ js "?rule=mo-1600") :: extractImages (baseUrl :: seenImages) rest
  end.

(** ** A concrete environment for evaluation *)

Module Sample.

(** [toLowerCase] on ASCII letters. *)
Definition asciiLower (s : jstr) : jstr :=
  map (fun c => if (65 <=? c) && (c <=? 90) then c + 32 else c) s.

Definition raw (title mileage reg cond : jstr) (imgs : list jstr) : RawData :=
  mkRaw title None mileage [] [] [] reg [] cond [] [] [] [] [] [] [] [] [] [] [] []
        [] [] [] [] [] [] [] None [] imgs.

Definition bmwRaw : RawData :=
  raw (js "BMW 320d") (js "85.000 km") (js "03/2021") (js "Unfallfrei") [].

(** Fifteen source images, of which the fourth (index 3) throws in the pipeline. *)
Definition imgs15 : list jstr := map (fun n => [Z.of_nat n]) (seq 0 15).

Definition env (existing : list jstr) (loads : jstr -> jstr + RawData)
  (search : jstr -> jstr + list jstr) : Env :=
  mkEnv asciiLower (fun _ => js "0a1b2c3d") search loads
    (fun u _ i => if Nat.eqb i 3 then ImgThrow (js "timeout") else ImgReturn (Some (js "up" ++ u)))
    (fun _ => None) (Some existing) 0.

End Sample.

Example parseRegistration_mm_yyyy : parseRegistration (js "03/2021") = JStr (js "202103").
Proof. reflexivity. Qed.

Example parseMakeModel_mercedes :
  parseMakeModel (js "Mercedes-Benz C 200") = (JStr (js "Mercedes-Benz"), JStr (js "C 200")).
Proof. vm_compute. reflexivity. Qed.

Example normalizeValue_tiers :
  normalizeValue Sample.asciiLower (js "benzin") [(js "Benzin", js "PETROL")] = Some (PStr (js "PETROL")) /\
  normalizeValue Sample.asciiLower (js "Benzin Plus") [(js "Benzin", js "PETROL")] = Some (PStr (js "PETROL")) /\
  normalizeValue Sample.asciiLower (js "Strom") [(js "Benzin", js "PETROL")] = None.
Proof. vm_compute. auto. Qed.

Example slug_sample :
  generateSlug Sample.asciiLower (js "0a1b2c3d") (JStr (js "Mercedes-Benz")) (JStr (js "C 200"))
    (JStr (js "2021")) = js "mercedes-benz-c-200-2021-0a1b2c3d".
Proof. vm_compute. reflexivity. Qed.

Example parseColor_sample :
  parseColor Sample.asciiLower (js "Schwarz Metallic") = (Some (PStr (js "BLACK")), true).
Proof. vm_compute. reflexivity. Qed.

Example parsePower_sample : parsePower (js "140 kW (190 PS)") = (JNum 140, JNum 190).
Proof. vm_compute. reflexivity. Qed.

(** ** Structure of [scrapeListingDetails] *)

(** The fingerprint computed from a detail page's data. *)
Definition rawFingerprint (raw : RawData) : jstr :=
  let '(mk, md) := parseMakeModel (r_title raw) in
  generateFingerprint mk md (parseNumeric (r_mileage raw))
    (parseRegistration (r_firstRegistration raw)).

(** The uploaded URLs that the image loop keeps for images [imgs]
    starting at index [i]. *)
Definition uploaded (env : Env) (slg : jstr) (imgs : list jstr) (i : nat) : list jstr :=
  flat_map (fun '(u, k) =>
              match processAndUploadImage env u slg k with
              | ImgReturn (Some v) => if jstr_eqb v [] then [] else [v]
              | _ => []
              end) (combine imgs (seq i (List.length imgs))).

Lemma processImages_spec env slg imgs : forall i st acc,
  let '(st', acc') := processImages env slg imgs i st acc in
  acc' = acc ++ uploaded env slg imgs i /\
  imageCalls st' = imageCalls st ++ combine imgs (seq i (List.length imgs)) /\
  visited st' = visited st /\
  errors (syncLog st') = errors (syncLog st) /\
  listingsSkipped (syncLog st') = listingsSkipped (syncLog st) /\
  imagesUploaded (syncLog st') = (imagesUploaded (syncLog st) + List.length (uploaded env slg imgs i))%nat.
Proof.
  induction imgs as [|u us IH]; intros i st acc; simpl.
  - rewrite !app_nil_r. repeat split; lia.
  - unfold uploaded; simpl; fold (uploaded env slg us (S i)).
    destruct (processAndUploadImage env u slg i) as [msg|[v|]] eqn:E;
      [| destruct (jstr_eqb v []) eqn:Ev |]; simpl;
    match goal with
    | |- context [processImages env slg us (S i) ?s ?a] =>
        specialize (IH (S i) s a); destruct (processImages env slg us (S i) s a) as [st' acc']
    end;
    destruct IH as (-> & H2 & H3 & H4 & H5 & H6); simpl in *;
    rewrite H2, <- !app_assoc; repeat split; auto; lia.
Qed.

Lemma scrapeListingDetails_listing env ex url st st' l :
  scrapeListingDetails env ex url st = (st', DListing l) ->
  exists raw, loadDetails env url = inr raw /\
    has ex (rawFingerprint raw) = false /\
    make l = fst (parseMakeModel (r_title raw)) /\
    model l = snd (parseMakeModel (r_title raw)) /\
    mileage l = parseNumeric (r_mileage raw) /\
    first_registration l = parseRegistration (r_firstRegistration raw) /\
    fingerprint l = rawFingerprint raw /\
    condition l = (if includes (toLowerCase env (r_condition raw)) (js "neuwagen")
                   then js "NEW" else js "USED") /\
    accident_damaged l = (if includes (toLowerCase env (r_condition raw)) (js "unfallfrei")
                          then Some false else None) /\
    (let kept := firstn (Nat.min (List.length (r_images raw)) maxImages) (r_images raw) in
     images l = uploaded env (slug l) kept 0 /\
     imageCalls st' = imageCalls st ++ combine kept (seq 0 (List.length kept)) /\
     errors (syncLog st') = errors (syncLog st) /\
     imagesUploaded (syncLog st') = (imagesUploaded (syncLog st) + List.length (images l))%nat).
Proof.
  unfold scrapeListingDetails, rawFingerprint. cbv zeta.
  destruct (loadDetails env url) as [msg|raw]; [discriminate|].
  destruct (parseMakeModel (r_title raw)) as [mk md] eqn:Hpm.
  destruct (has ex _) eqn:Hh; [discriminate|].
  destruct (parseColor _ _); destruct (parseInterior _ _); destruct (parsePower _).
  match goal with
  | |- context [processImages env ?slg ?kept 0 (visit url st) []] =>
      pose proof (processImages_spec env slg kept 0 (visit url st) []) as HP;
      destruct (processImages env slg kept 0 (visit url st) []) as [st2 urls]
  end.
  intros H; inversion H; subst; clear H.
  destruct HP as (-> & H2 & H3 & H4 & H5 & H6).
  exists raw; rewrite Hpm; cbn [fst snd images slug]; repeat split; auto.
Qed.

Lemma scrapeListingDetails_skipped env ex url st raw :
  loadDetails env url = inr raw ->
  has ex (rawFingerprint raw) = true ->
  scrapeListingDetails env ex url st = (visit url st, DSkipped (r_title raw)).
Proof.
  intros Hl Hh. unfold scrapeListingDetails, rawFingerprint in *. rewrite Hl. cbv zeta.
  destruct (parseMakeModel (r_title raw)) as [mk md]. rewrite Hh. reflexivity.
Qed.

Lemma js_new_used : js "NEW" <> js "USED".
Proof. intro H. vm_compute in H. discriminate H. Qed.

Lemma scrapeListings_skip env ex url us st listings raw :
  loadDetails env url = inr raw ->
  has ex (rawFingerprint raw) = true ->
  scrapeListings env ex (url :: us) st listings
  = scrapeListings env ex us (incSkipped (visit url st)) listings.
Proof.
  intros Hl Hh. simpl. rewrite (scrapeListingDetails_skipped env ex url st raw Hl Hh).
  reflexivity.
Qed.

(** ** Claims *)

(** C1: the fingerprint stored in every assembled listing is
    [generateFingerprint] of that listing's make, model, mileage and first
    registration, so listings agreeing on those four fields get the same
    fingerprint whatever their other fields; the digest for
    ("BMW", "320d", 85000, "202103") is the fixed MD5 value, and changing
    the mileage to 85001 changes it. *)
Theorem fingerprint_of_four_fields :
  (forall env ex url st st' l,
     scrapeListingDetails env ex url st = (st', DListing l) ->
     fingerprint l = generateFingerprint (make l) (model l) (mileage l) (first_registration l)) /\
  (forall env1 env2 ex1 ex2 u1 u2 s1 s2 s1' s2' l1 l2,
     scrapeListingDetails env1 ex1 u1 s1 = (s1', DListing l1) ->
     scrapeListingDetails env2 ex2 u2 s2 = (s2', DListing l2) ->
     make l1 = make l2 -> model l1 = model l2 -> mileage l1 = mileage l2 ->
     first_registration l1 = first_registration l2 ->
     fingerprint l1 = fingerprint l2) /\
  generateFingerprint (JStr (js "BMW")) (JStr (js "320d")) (JNum 85000) (JStr (js "202103"))
    = js "340c3f097964ef1b8be801ff7633eeda" /\
  generateFingerprint (JStr (js "BMW")) (JStr (js "320d")) (JNum 85000) (JStr (js "202103"))
    <> generateFingerprint (JStr (js "BMW")) (JStr (js "320d")) (JNum 85001) (JStr (js "202103")).
Proof.
  assert (Hfp : forall env ex url st st' l,
             scrapeListingDetails env ex url st = (st', DListing l) ->
             fingerprint l = generateFingerprint (make l) (model l) (mileage l)
                               (first_registration l)).
  { intros env ex url st st' l H.
    destruct (scrapeListingDetails_listing env ex url st st' l H)
      as (raw & _ & _ & Hmk & Hmd & Hmi & Hrg & Hf & _).
    rewrite Hf, Hmk, Hmd, Hmi, Hrg. unfold rawFingerprint.
    destruct (parseMakeModel (r_title raw)); reflexivity. }
  split; [exact Hfp|]. split.
  - intros * H1 H2 Hmk Hmd Hmi Hrg.
    rewrite (Hfp _ _ _ _ _ _ H1), (Hfp _ _ _ _ _ _ H2), Hmk, Hmd, Hmi, Hrg. reflexivity.
  - split; [vm_compute; reflexivity|].
    intro H. vm_compute in H. discriminate H.
Qed.

(** C10: a falsy argument of [generateFingerprint] contributes the empty
    string, so mileage 0 and mileage [null] give the same fingerprint, and
    any two falsy values are interchangeable in each of the four
    positions. *)
Theorem fingerprint_falsy_blank (mk md mi rg v w : jsval)
  (Hv : truthy v = false) (Hw : truthy w = false) :
  generateFingerprint mk md (JNum 0) rg = generateFingerprint mk md JNull rg /\
  generateFingerprint v md mi rg = generateFingerprint w md mi rg /\
  generateFingerprint mk v mi rg = generateFingerprint mk w mi rg /\
  generateFingerprint mk md v rg = generateFingerprint mk md w rg /\
  generateFingerprint mk md mi v = generateFingerprint mk md mi w.
Proof.
  unfold generateFingerprint, orEmpty. rewrite Hv, Hw. repeat split; reflexivity.
Qed.

Lemma fingerprint_falsy_blank_witness :
  truthy (JNum 0) = false /\ truthy (JStr []) = false /\
  generateFingerprint (JStr (js "BMW")) (JStr (js "320d")) (JNum 0) JNull
  = generateFingerprint (JStr (js "BMW")) (JStr (js "320d")) JUndef JNull.
Proof.
  split; [reflexivity|]. split; [reflexivity|].
  exact (proj1 (proj2 (proj2 (proj2 (fingerprint_falsy_blank (JStr (js "BMW"))
           (JStr (js "320d")) (JNum 0) JNull (JNum 0) JUndef eq_refl eq_refl))))).
Defined.

(** C2 (divergence): [normalizeValue "constructor" fuelTypeMap] finds no
    key "constructor" in the table, yet the exact-match read
    [map[value]] reaches [Object.prototype.constructor], a truthy
    function, and returns it instead of [null]; this holds whatever the
    host's lowercasing. *)
Theorem normalizeValue_constructor_inherited (lower : jstr -> jstr) :
  find (fun kv => jstr_eqb (fst kv) (js "constructor")) fuelTypeMap = None /\
  normalizeValue lower (js "constructor") fuelTypeMap = Some (PProto (js "constructor")).
Proof. split; vm_compute; reflexivity. Qed.

(** C3: when the fingerprint of a candidate's page is in the known set,
    [scrapeListingDetails] returns [{skipped}] right after loading the page:
    no image pipeline call, no listing; in the dealer loop the candidate
    only increments the skip counter by one and leaves the collected
    listings, the image calls, the uploads and the errors unchanged. *)
Theorem dedup_short_circuit env ex url st raw
  (Hload : loadDetails env url = inr raw) (Hknown : has ex (rawFingerprint raw) = true) :
  scrapeListingDetails env ex url st = (visit url st, DSkipped (r_title raw)) /\
  imageCalls (visit url st) = imageCalls st /\
  syncLog (visit url st) = syncLog st /\
  (forall us listings, exists st'',
     scrapeListings env ex (url :: us) st listings = scrapeListings env ex us st'' listings /\
     imageCalls st'' = imageCalls st /\
     listingsSkipped (syncLog st'') = S (listingsSkipped (syncLog st)) /\
     imagesUploaded (syncLog st'') = imagesUploaded (syncLog st) /\
     listingsFound (syncLog st'') = listingsFound (syncLog st) /\
     errors (syncLog st'') = errors (syncLog st)).
Proof.
  split; [exact (scrapeListingDetails_skipped env ex url st raw Hload Hknown)|].
  split; [reflexivity|]. split; [reflexivity|].
  intros us listings. exists (incSkipped (visit url st)).
  rewrite (scrapeListings_skip env ex url us st listings raw Hload Hknown).
  repeat split; reflexivity.
Qed.

Definition sampleKnownEnv : Env :=
  Sample.env [rawFingerprint Sample.bmwRaw] (fun _ => inr Sample.bmwRaw) (fun _ => inr []).

Lemma dedup_short_circuit_witness :
  loadDetails sampleKnownEnv (js "u") = inr Sample.bmwRaw /\
  has [rawFingerprint Sample.bmwRaw] (rawFingerprint Sample.bmwRaw) = true /\
  scrapeListingDetails sampleKnownEnv [rawFingerprint Sample.bmwRaw] (js "u") st0
  = (visit (js "u") st0, DSkipped (r_title Sample.bmwRaw)).
Proof.
  assert (Hl : loadDetails sampleKnownEnv (js "u") = inr Sample.bmwRaw) by reflexivity.
  assert (Hk : has [rawFingerprint Sample.bmwRaw] (rawFingerprint Sample.bmwRaw) = true)
    by (vm_compute; reflexivity).
  split; [exact Hl|]. split; [exact Hk|].
  exact (proj1 (dedup_short_circuit sampleKnownEnv _ (js "u") st0 Sample.bmwRaw Hl Hk)).
Defined.

(** C9: in every assembled listing, [condition] is "NEW" exactly when the
    lowercased condition text contains "neuwagen" and "USED" otherwise,
    and [accident_damaged] is [false] exactly when it contains
    "unfallfrei" and [null] otherwise, never [true]; a page without the
    "Fahrzeugzustand" label (condition text [''], whose lowercase is
    [''] ) gives "USED" and [null]. *)
Theorem condition_accident_fields env ex url st st' l
  (H : scrapeListingDetails env ex url st = (st', DListing l)) :
  exists raw, loadDetails env url = inr raw /\
    (condition l = js "NEW" \/ condition l = js "USED") /\
    (condition l = js "NEW" <-> includes (toLowerCase env (r_condition raw)) (js "neuwagen") = true) /\
    (condition l = js "USED" <-> includes (toLowerCase env (r_condition raw)) (js "neuwagen") = false) /\
    accident_damaged l <> Some true /\
    (accident_damaged l = Some false <->
       includes (toLowerCase env (r_condition raw)) (js "unfallfrei") = true) /\
    (accident_damaged l = None <->
       includes (toLowerCase env (r_condition raw)) (js "unfallfrei") = false) /\
    (r_condition raw = [] -> toLowerCase env [] = [] ->
       condition l = js "USED" /\ accident_damaged l = None).
Proof.
  destruct (scrapeListingDetails_listing env ex url st st' l H)
    as (raw & Hl & _ & _ & _ & _ & _ & _ & Hc & Ha & _).
  exists raw. split; [exact Hl|]. rewrite Hc, Ha.
  pose proof js_new_used as Hne.
  destruct (includes (toLowerCase env (r_condition raw)) (js "neuwagen")) eqn:En;
  destruct (includes (toLowerCase env (r_condition raw)) (js "unfallfrei")) eqn:Eu;
  repeat split; intros; try congruence; try (left; reflexivity); try (right; reflexivity);
  match goal with
  | Hr : r_condition raw = [] |- _ =>
      rewrite Hr in *;
      match goal with Hlw : toLowerCase env [] = [] |- _ => rewrite Hlw in * end;
      vm_compute in En; vm_compute in Eu; congruence
  end.
Qed.

Definition sampleNewEnv : Env :=
  Sample.env [] (fun _ => inr Sample.bmwRaw) (fun _ => inr []).

Lemma condition_accident_fields_witness :
  exists st' l,
    scrapeListingDetails sampleNewEnv [] (js "u") st0 = (st', DListing l) /\
    condition l = js "USED" /\ accident_damaged l = Some false.
Proof.
  destruct (scrapeListingDetails sampleNewEnv [] (js "u") st0) as [st' r] eqn:Hr.
  pose proof Hr as Hr'. vm_compute in Hr'. injection Hr' as <- <-.
  destruct (condition_accident_fields sampleNewEnv [] (js "u") st0 _ _ Hr)
    as (raw & Hl & _ & _ & Hused & _ & Hfalse & _ & _).
  vm_compute in Hl. injection Hl as <-.
  eexists; eexists; split; [exact Hr|].
  split; [apply Hused | apply Hfalse]; vm_compute; reflexivity.
Defined.

(** C4 (failing input): fifteen source images, the fourth of which
    throws in the image pipeline: ten images are attempted and the
    listing gets nine, but the run report's error list stays empty: the
    failure adds no error entry. *)
Lemma image_failure_not_reported :
  let env := Sample.env [] (fun _ => inr (Sample.raw (js "BMW 320d") [] [] [] Sample.imgs15))
                        (fun _ => inr []) in
  match scrapeListingDetails env [] (js "u") st0 with
  | (st', DListing l) =>
      List.length (imageCalls st') = 10%nat /\ List.length (images l) = 9%nat /\
      images l = map (fun n => js "up" ++ [Z.of_nat n]) [0; 1; 2; 4; 5; 6; 7; 8; 9]%nat /\
      List.length (errors (syncLog st')) = 0%nat
  | _ => False
  end.
Proof. vm_compute. repeat split. Qed.

Lemma scrapeListingDetails_new env ex url st raw :
  loadDetails env url = inr raw ->
  has ex (rawFingerprint raw) = false ->
  exists st' l, scrapeListingDetails env ex url st = (st', DListing l).
Proof.
  intros Hl Hh. unfold scrapeListingDetails, rawFingerprint in *. rewrite Hl. cbv zeta.
  destruct (parseMakeModel (r_title raw)) as [mk md]. rewrite Hh.
  destruct (parseColor _ _); destruct (parseInterior _ _); destruct (parsePower _).
  match goal with
  | |- context [processImages ?e ?slg ?kept 0 ?s []] => destruct (processImages e slg kept 0 s [])
  end.
  eauto.
Qed.

(** C4 (code bug): for a candidate that is not skipped, the image
    pipeline is called on exactly the first min(n, 10) source images, in
    order and with indices 0, 1, ...; a throwing call is caught and the
    loop and the listing go on; the listing's [images] are exactly the
    URLs returned by the successful uploads, in source order; but the
    run report's error list is left unchanged whatever the image calls
    do, so a failing image adds no error entry, where each failure
    should add exactly one. *)
Theorem image_cap_partial_failure env ex url st raw
  (Hload : loadDetails env url = inr raw) (Hnew : has ex (rawFingerprint raw) = false) :
  exists st' l,
    scrapeListingDetails env ex url st = (st', DListing l) /\
    let kept := firstn (Nat.min (List.length (r_images raw)) 10) (r_images raw) in
    List.length kept = Nat.min (List.length (r_images raw)) 10 /\
    imageCalls st' = imageCalls st ++ combine kept (seq 0 (List.length kept)) /\
    images l = uploaded env (slug l) kept 0 /\
    errors (syncLog st') = errors (syncLog st) /\
    imagesUploaded (syncLog st') = (imagesUploaded (syncLog st) + List.length (images l))%nat.
Proof.
  destruct (scrapeListingDetails_new env ex url st raw Hload Hnew) as (st' & l & H).
  exists st', l. split; [exact H|].
  destruct (scrapeListingDetails_listing env ex url st st' l H)
    as (raw' & Hl' & _ & _ & _ & _ & _ & _ & _ & _ & Himg & Hcalls & Herr & Hup).
  rewrite Hload in Hl'. injection Hl' as <-.
  cbv zeta. split; [|auto].
  rewrite length_firstn. lia.
Qed.

Definition sampleImagesEnv : Env :=
  Sample.env [] (fun _ => inr (Sample.raw (js "BMW 320d") [] [] [] Sample.imgs15))
             (fun _ => inr []).

Lemma image_cap_partial_failure_witness :
  exists st' l,
    scrapeListingDetails sampleImagesEnv [] (js "u") st0 = (st', DListing l) /\
    List.length (imageCalls st') = 10%nat /\ List.length (images l) = 9%nat /\
    processAndUploadImage sampleImagesEnv (nth 3 Sample.imgs15 []) (slug l) 3
      = ImgThrow (js "timeout") /\
    errors (syncLog st') = [].
Proof.
  assert (Hl : loadDetails sampleImagesEnv (js "u")
               = inr (Sample.raw (js "BMW 320d") [] [] [] Sample.imgs15)) by reflexivity.
  assert (Hh : has [] (rawFingerprint (Sample.raw (js "BMW 320d") [] [] [] Sample.imgs15))
               = false) by reflexivity.
  destruct (image_cap_partial_failure sampleImagesEnv [] (js "u") st0 _ Hl Hh)
    as (st' & l & H & _ & Hcalls & Himg & Herr & _).
  exists st', l. split; [exact H|].
  rewrite Hcalls, Himg, Herr.
  pose proof H as H'. vm_compute in H'. injection H' as <- <-.
  vm_compute. repeat split.
Defined.

(** ** [parseRegistration]: occurrences of MM/YYYY *)

(** [s] has two ASCII digits, '/', and four ASCII digits at position [i]. *)
Definition reg_at (s : jstr) (i : nat) : bool :=
  is_digit (nth i s 0) && is_digit (nth (i + 1) s 0) && (nth (i + 2) s 0 =? 47)
  && is_digit (nth (i + 3) s 0) && is_digit (nth (i + 4) s 0)
  && is_digit (nth (i + 5) s 0) && is_digit (nth (i + 6) s 0).

Lemma reg_at_S a s i : reg_at (a :: s) (S i) = reg_at s i.
Proof. reflexivity. Qed.

Lemma reg_at_nil i : reg_at [] i = false.
Proof. unfold reg_at. rewrite !nth_overflow by (simpl; lia). reflexivity. Qed.

Lemma find_reg_cons a rest :
  find_reg (a :: rest) =
  if reg_at (a :: rest) 0
  then Some ([nth 0 (a :: rest) 0; nth 1 (a :: rest) 0],
             [nth 3 (a :: rest) 0; nth 4 (a :: rest) 0; nth 5 (a :: rest) 0; nth 6 (a :: rest) 0])
  else find_reg rest.
Proof.
  destruct rest as [|b [|sl [|c [|d [|e [|f t]]]]]]; unfold reg_at; simpl;
    rewrite ?andb_false_r; reflexivity.
Qed.

Lemma find_reg_none s : (forall i, reg_at s i = false) -> find_reg s = None.
Proof.
  induction s as [|a s IH]; intros H; [reflexivity|].
  rewrite find_reg_cons, (H 0%nat). apply IH. intro i. rewrite <- (reg_at_S a). apply H.
Qed.

Lemma find_reg_first s : forall i,
  reg_at s i = true -> (forall j, (j < i)%nat -> reg_at s j = false) ->
  find_reg s = Some ([nth i s 0; nth (i + 1) s 0],
                     [nth (i + 3) s 0; nth (i + 4) s 0; nth (i + 5) s 0; nth (i + 6) s 0]).
Proof.
  induction s as [|a s IH]; intros i Hi Hlt.
  - rewrite reg_at_nil in Hi. discriminate.
  - rewrite find_reg_cons. destruct i as [|i].
    + rewrite Hi. reflexivity.
    + rewrite (Hlt 0%nat) by lia. rewrite reg_at_S in Hi.
      apply IH; [exact Hi|]. intros j Hj. rewrite <- (reg_at_S a). apply Hlt. lia.
Qed.

(** ** [parseMakeModel]: prefixes and the space split *)

Lemma first_make_first pre m post t :
  (forall m', In m' pre -> startsWith t m' = false) -> startsWith t m = true ->
  first_make (pre ++ m :: post) t = Some m.
Proof.
  induction pre as [|p pre IH]; intros Hpre Hm; simpl.
  - rewrite Hm. reflexivity.
  - rewrite (Hpre p (or_introl eq_refl)). apply IH; auto.
    intros m' Hin. apply Hpre. right. exact Hin.
Qed.

Lemma first_make_none ms t :
  (forall m, In m ms -> startsWith t m = false) -> first_make ms t = None.
Proof.
  induction ms as [|m ms IH]; intros H; simpl; [reflexivity|].
  rewrite (H m (or_introl eq_refl)). apply IH. intros m' Hin. apply H. right. exact Hin.
Qed.

Lemma split_on_nonempty sep s : split_on sep s <> [].
Proof.
  destruct s as [|c s]; simpl; [discriminate|].
  destruct (c =? sep); [discriminate|]. destruct (split_on sep s); discriminate.
Qed.

Lemma split_on_app sep w r :
  ~ In sep w -> split_on sep (w ++ sep :: r) = w :: split_on sep r.
Proof.
  induction w as [|c w IH]; intros Hn; simpl.
  - rewrite Z.eqb_refl. reflexivity.
  - rewrite IH by (intro Hin; apply Hn; right; exact Hin).
    destruct (Z.eqb_spec c sep) as [->|_]; [exfalso; apply Hn; left; reflexivity|].
    reflexivity.
Qed.

Lemma split_on_nosep sep t : ~ In sep t -> split_on sep t = [t].
Proof.
  induction t as [|c t IH]; intros Hn; simpl; [reflexivity|].
  rewrite IH by (intro Hin; apply Hn; right; exact Hin).
  destruct (Z.eqb_spec c sep) as [->|_]; [exfalso; apply Hn; left; reflexivity|].
  reflexivity.
Qed.

Lemma join_split sep r : join sep (split_on sep r) = r.
Proof.
  induction r as [|c r IH]; [reflexivity|]. simpl.
  pose proof (split_on_nonempty sep r) as Hne.
  destruct (split_on sep r) as [|p ps] eqn:E; [contradiction|].
  destruct (Z.eqb_spec c sep) as [->|_].
  - rewrite <- IH. destruct ps; reflexivity.
  - rewrite <- IH. destruct ps; reflexivity.
Qed.

Lemma knownMakes_nonempty : ~ In [] knownMakes.
Proof. intro H. vm_compute in H. repeat destruct H as [H|H]; try discriminate H; exact H. Qed.

(** C6 (counterexample): the empty text is a non-null string without the
    MM/YYYY shape, but [parseRegistration] returns [null] for it rather
    than the text unchanged. *)
Lemma parseRegistration_empty_is_null :
  find_reg [] = None /\ parseRegistration [] = JNull /\ parseRegistration [] <> JStr [].
Proof. split; [reflexivity|]. split; [reflexivity|]. discriminate. Qed.

(** C6 (amended): the empty text gives [null]; a non-empty text with no
    occurrence of two digits, '/', four digits anywhere is returned
    unchanged; otherwise the leftmost occurrence MM/YYYY is reformatted to
    YYYYMM. *)
Theorem registration_parse :
  parseRegistration [] = JNull /\
  (forall s, s <> [] -> (forall i, reg_at s i = false) -> parseRegistration s = JStr s) /\
  (forall s i, reg_at s i = true -> (forall j, (j < i)%nat -> reg_at s j = false) ->
     parseRegistration s
     = JStr ([nth (i + 3) s 0; nth (i + 4) s 0; nth (i + 5) s 0; nth (i + 6) s 0]
             ++ [nth i s 0; nth (i + 1) s 0])) /\
  parseRegistration (js "03/2021") = JStr (js "202103") /\
  parseRegistration (js "2021") = JStr (js "2021").
Proof.
  split; [reflexivity|]. split; [|split; [|split; reflexivity]].
  - intros s Hne Hno. unfold parseRegistration.
    destruct s as [|a s]; [contradiction|]. simpl jstr_eqb. cbv iota beta.
    rewrite (find_reg_none _ Hno). reflexivity.
  - intros s i Hi Hlt. unfold parseRegistration.
    destruct s as [|a s]; [rewrite reg_at_nil in Hi; discriminate|].
    simpl jstr_eqb. cbv iota beta.
    rewrite (find_reg_first _ i Hi Hlt). reflexivity.
Qed.

Lemma registration_parse_witness :
  reg_at (js "EZ 03/2021") 3 = true /\
  parseRegistration (js "EZ 03/2021") = JStr (js "202103") /\
  parseRegistration (js "2021") = JStr (js "2021").
Proof.
  assert (H1 : reg_at (js "EZ 03/2021") 3 = true) by reflexivity.
  assert (H2 : forall j, (j < 3)%nat -> reg_at (js "EZ 03/2021") j = false).
  { intros j Hj. destruct j as [|[|[|j]]]; [reflexivity..|lia]. }
  assert (H3 : js "2021" <> []) by discriminate.
  assert (H4 : forall i, reg_at (js "2021") i = false).
  { intro i. destruct i as [|[|[|[|i]]]]; try reflexivity.
    unfold reg_at. rewrite !nth_overflow by (simpl; lia). reflexivity. }
  destruct registration_parse as (_ & Hnone & Hsome & _).
  split; [exact H1|]. split.
  - rewrite (Hsome _ 3%nat H1 H2). reflexivity.
  - exact (Hnone _ H3 H4).
Defined.

(** C7 (counterexample): no known make prefixes the empty title, yet
    [parseMakeModel] does not fall back to a string make: it returns
    [null] for both make and model. *)
Lemma parseMakeModel_empty_title :
  (forall m, In m knownMakes -> startsWith [] m = false) /\
  parseMakeModel [] = (JNull, JNull) /\
  (forall s, fst (parseMakeModel []) <> JStr s).
Proof.
  split.
  - intros m Hin. destruct m as [|c m]; [contradiction (knownMakes_nonempty Hin)|reflexivity].
  - split; [reflexivity|]. intros s. discriminate.
Qed.

(** C7 (amended): the empty title gives make and model [null]; otherwise
    the first name of the fixed list that prefixes the title is the make
    and the rest of the title, trimmed, is the model; when no listed name
    prefixes the title, the title is split at its first space character:
    make is the text before it and model the text after it (the whole
    title and the empty string when it has no space). *)
Theorem make_model_parse :
  parseMakeModel [] = (JNull, JNull) /\
  (forall t pre m post, knownMakes = pre ++ m :: post -> startsWith t m = true ->
     (forall m', In m' pre -> startsWith t m' = false) ->
     parseMakeModel t = (JStr m, JStr (trim (skipn (List.length m) t)))) /\
  (forall t w r, (forall m, In m knownMakes -> startsWith t m = false) ->
     ~ In 32 w -> t = w ++ 32 :: r -> parseMakeModel t = (JStr w, JStr r)) /\
  (forall t, t <> [] -> (forall m, In m knownMakes -> startsWith t m = false) ->
     ~ In 32 t -> parseMakeModel t = (JStr t, JStr [])) /\
  parseMakeModel (js "Mercedes-Benz C 200") = (JStr (js "Mercedes-Benz"), JStr (js "C 200")).
Proof.
  split; [reflexivity|]. split; [|split; [|split]].
  - intros t pre m post Hk Hs Hpre. unfold parseMakeModel.
    destruct t as [|c t].
    + destruct m as [|x m]; [|discriminate Hs].
      exfalso. apply knownMakes_nonempty. rewrite Hk. apply in_or_app. right. left. reflexivity.
    + simpl jstr_eqb. cbv iota beta. rewrite Hk, (first_make_first pre m post _ Hpre Hs).
      reflexivity.
  - intros t w r Hno Hw ->. unfold parseMakeModel.
    destruct (jstr_eqb (w ++ 32 :: r) []) eqn:E.
    + apply jstr_eqb_eq in E. destruct w; discriminate E.
    + rewrite (first_make_none _ _ Hno), (split_on_app _ _ _ Hw). simpl.
      rewrite join_split. reflexivity.
  - intros t Hne Hno Hsp. unfold parseMakeModel.
    destruct t as [|c t]; [contradiction|]. simpl jstr_eqb. cbv iota beta.
    rewrite (first_make_none _ _ Hno), (split_on_nosep _ _ Hsp). reflexivity.
  - vm_compute. reflexivity.
Qed.

Lemma make_model_parse_witness :
  parseMakeModel (js "Dacia Duster") = (JStr (js "Dacia"), JStr (js "Duster")).
Proof.
  destruct make_model_parse as (_ & _ & Hsplit & _).
  apply Hsplit.
  - intros m Hin. vm_compute in Hin.
    repeat destruct Hin as [<-|Hin]; try reflexivity. contradiction.
  - vm_compute. intros [H|[H|[H|[H|[H|[]]]]]]; discriminate H.
  - reflexivity.
Defined.

(** ** The dealer loop and [main] *)

Lemma scrapeListingDetails_effects env ex url st :
  visited (fst (scrapeListingDetails env ex url st)) = visited st ++ [url] /\
  listingsSkipped (syncLog (fst (scrapeListingDetails env ex url st)))
  = listingsSkipped (syncLog st).
Proof.
  unfold scrapeListingDetails. cbv zeta.
  destruct (loadDetails env url) as [msg|raw]; [simpl; auto|].
  destruct (parseMakeModel (r_title raw)) as [mk md].
  destruct (has ex _); [simpl; auto|].
  destruct (parseColor _ _); destruct (parseInterior _ _); destruct (parsePower _).
  match goal with
  | |- context [processImages env ?slg ?kept 0 (visit url st) []] =>
      pose proof (processImages_spec env slg kept 0 (visit url st) []) as HP;
      destruct (processImages env slg kept 0 (visit url st) []) as [st2 urls]
  end.
  destruct HP as (_ & _ & H3 & _ & H5 & _). simpl. auto.
Qed.

Lemma scrapeListings_visited env ex urls : forall st ls,
  visited (fst (scrapeListings env ex urls st ls)) = visited st ++ urls.
Proof.
  induction urls as [|u us IH]; intros st ls; simpl; [rewrite app_nil_r; reflexivity|].
  pose proof (scrapeListingDetails_effects env ex u st) as [Hv _].
  destruct (scrapeListingDetails env ex u st) as [st1 r]. simpl in Hv.
  destruct r; rewrite IH; simpl; rewrite Hv, <- app_assoc; reflexivity.
Qed.

Lemma slice0_length {A} (l : list A) k :
  0 <= k -> (List.length (slice0 l k) <= Z.to_nat k)%nat.
Proof.
  intros Hk. unfold slice0. apply Z.leb_le in Hk. rewrite Hk, length_firstn. lia.
Qed.

Lemma slice0_all {A} (l : list A) k :
  Z.of_nat (List.length l) <= k -> slice0 l k = l.
Proof.
  intros Hk. unfold slice0.
  assert (H0 : 0 <= k) by lia. apply Z.leb_le in H0. rewrite H0.
  apply firstn_all2. lia.
Qed.

Lemma dealerLoop_bound env cfg ex ds : forall all st,
  0 <= maxTotalListings cfg -> Z.of_nat (List.length all) <= maxTotalListings cfg ->
  Z.of_nat (List.length (snd (dealerLoop env cfg ex ds all st))) <= maxTotalListings cfg.
Proof.
  induction ds as [|d ds IH]; intros all st H0 Hall; simpl; [exact Hall|].
  destruct (scrapeDealer env cfg ex (dealerUrl d) (addDealer d st)) as [st2 ls].
  destruct (Z.of_nat (List.length (all ++ ls)) >=? maxTotalListings cfg) eqn:E.
  - simpl. pose proof (slice0_length (all ++ ls) _ H0). lia.
  - apply IH; [exact H0|]. rewrite Z.geb_leb, Z.leb_gt in E. lia.
Qed.

Lemma insertAll_skipped env ls : forall st,
  listingsSkipped (syncLog (insertAll env ls st)) = listingsSkipped (syncLog st).
Proof.
  induction ls as [|l ls IH]; intros st; simpl; [reflexivity|].
  destruct (insertListing env l); rewrite IH; reflexivity.
Qed.

Lemma applyOverride_dealers env cfg :
  dealers (applyOverride env cfg) = dealers cfg /\
  maxListingsPerDealer (applyOverride env cfg) = maxListingsPerDealer cfg.
Proof. unfold applyOverride. destruct (0 <? maxListingsOverride env); auto. Qed.

Definition dupDealer1 : Dealer := mkDealer (js "A") (js "dealerA").
Definition dupDealer2 : Dealer := mkDealer (js "B") (js "dealerB").

Definition dupEnv : Env :=
  Sample.env [] (fun _ => inr Sample.bmwRaw)
    (fun d => if jstr_eqb d (js "dealerA") then inr [js "u1"] else inr [js "u2"]).

Definition dupConfig : Config := mkConfig true 5 10 [dupDealer1; dupDealer2].

(** C8: with non-negative caps, (1) a dealer navigates to at most
    [maxListingsPerDealer] detail pages; (2) once the listings collected
    so far plus those of the dealer just scraped reach [maxTotalListings],
    the loop stops, whatever dealers remain, and keeps the first
    [maxTotalListings] of them, the in-progress dealer's included; (3) the
    loop never yields more than [maxTotalListings] listings, and (4) nor
    does [main] pass more than its effective cap to insertion. *)
Theorem listing_caps env cfg ex
  (Hper : 0 <= maxListingsPerDealer cfg) (Htot : 0 <= maxTotalListings cfg) :
  (forall url st, exists newv,
     visited (fst (scrapeDealer env cfg ex url st)) = visited st ++ newv /\
     (List.length newv <= Z.to_nat (maxListingsPerDealer cfg))%nat) /\
  (forall d ds all st,
     let r := scrapeDealer env cfg ex (dealerUrl d) (addDealer d st) in
     maxTotalListings cfg <= Z.of_nat (List.length (all ++ snd r)) ->
     dealerLoop env cfg ex (d :: ds) all st
     = (addFound (List.length (snd r)) (fst r),
        firstn (Z.to_nat (maxTotalListings cfg)) (all ++ snd r))) /\
  (forall ds st,
     Z.of_nat (List.length (snd (dealerLoop env cfg ex ds [] st))) <= maxTotalListings cfg) /\
  (forall st inserted, main env cfg = Completed st inserted ->
     Z.of_nat (List.length inserted) <= maxTotalListings (applyOverride env cfg)).
Proof.
  split; [|split; [|split]].
  - intros url st. unfold scrapeDealer.
    destruct (searchListings env url) as [msg|urls].
    + exists []. simpl. rewrite app_nil_r. split; [reflexivity|lia].
    + exists (slice0 urls (maxListingsPerDealer cfg)).
      rewrite scrapeListings_visited. split; [reflexivity|].
      apply slice0_length. exact Hper.
  - intros d ds all st. cbv zeta. intros Hge. simpl.
    destruct (scrapeDealer env cfg ex (dealerUrl d) (addDealer d st)) as [st2 ls].
    simpl in Hge.
    assert (E : (Z.of_nat (List.length (all ++ ls)) >=? maxTotalListings cfg) = true)
      by (rewrite Z.geb_leb; apply Z.leb_le; exact Hge).
    rewrite E. unfold slice0. apply Z.leb_le in Htot. rewrite Htot. reflexivity.
  - intros ds st. apply dealerLoop_bound; [exact Htot|simpl; lia].
  - intros st inserted. unfold main.
    destruct (enabled cfg); [|discriminate]. cbn [negb].
    assert (H0 : 0 <= maxTotalListings (applyOverride env cfg)).
    { unfold applyOverride. destruct (0 <? maxListingsOverride env) eqn:E; simpl.
      - apply Z.ltb_lt in E. lia.
      - exact Htot. }
    pose proof (dealerLoop_bound env (applyOverride env cfg) (getExistingFingerprints env)
                  (dealers (applyOverride env cfg)) [] st0 H0 ltac:(simpl; lia)) as HB.
    destruct (dealerLoop _ _ _ _ _ _) as [st' all].
    intros H. injection H as _ <-. exact HB.
Qed.

Definition capConfig : Config := mkConfig true 1 1 [dupDealer1; dupDealer2].

Lemma listing_caps_witness :
  dealerLoop dupEnv capConfig [] [dupDealer1; dupDealer2] [] st0
  = (addFound 1 (fst (scrapeDealer dupEnv capConfig [] (js "dealerA") (addDealer dupDealer1 st0))),
     firstn 1 (snd (scrapeDealer dupEnv capConfig [] (js "dealerA") (addDealer dupDealer1 st0)))).
Proof.
  assert (H0 : 0 <= maxListingsPerDealer capConfig) by (simpl; lia).
  assert (H1 : 0 <= maxTotalListings capConfig) by (simpl; lia).
  destruct (listing_caps dupEnv capConfig [] H0 H1) as (_ & Hstop & _ & _).
  apply (Hstop dupDealer1 [dupDealer2] [] st0).
  vm_compute. discriminate.
Defined.

(** ** Further properties of the code *)

(** *** Digit strings *)

Lemma digits_value_acc l : forall a,
  fold_left (fun acc c => acc * 10 + digit_val c) l a
  = a * 10 ^ Z.of_nat (List.length l) + digits_value l.
Proof.
  unfold digits_value. induction l as [|c l IH]; intros a; cbn [fold_left List.length].
  { simpl. lia. }
  rewrite (IH (a * 10 + digit_val c)), (IH (0 * 10 + digit_val c)).
  rewrite Nat2Z.inj_succ, Z.pow_succ_r by lia. lia.
Qed.

Lemma digits_value_cons c l :
  digits_value (c :: l) = digit_val c * 10 ^ Z.of_nat (List.length l) + digits_value l.
Proof. unfold digits_value at 1. simpl. rewrite digits_value_acc. lia. Qed.

Lemma digits_value_nonneg l : forallb is_digit l = true -> 0 <= digits_value l.
Proof.
  induction l as [|c l IH]; simpl; [unfold digits_value; simpl; lia|].
  rewrite andb_true_iff. intros [Hc Hl]. rewrite digits_value_cons.
  unfold is_digit, digit_val in *. rewrite andb_true_iff, !Z.leb_le in Hc.
  specialize (IH Hl). pose proof (Z.pow_nonneg 10 (Z.of_nat (List.length l))). nia.
Qed.

Lemma filter_idem {A} (f : A -> bool) l : filter f (filter f l) = filter f l.
Proof. induction l as [|x l IH]; simpl; [reflexivity|]. destruct (f x) eqn:E; simpl; rewrite ?E, IH; reflexivity. Qed.

Lemma forallb_filter {A} (f : A -> bool) l : forallb f (filter f l) = true.
Proof. induction l as [|x l IH]; simpl; [reflexivity|]. destruct (f x) eqn:E; simpl; rewrite ?E; auto. Qed.

Lemma filter_nil_existsb {A} (f : A -> bool) l : filter f l = [] <-> existsb f l = false.
Proof.
  induction l as [|x l IH]; simpl; [tauto|].
  destruct (f x); simpl; [split; discriminate|exact IH].
Qed.

Lemma jstr_eqb_nil s : jstr_eqb s [] = true <-> s = [].
Proof. apply jstr_eqb_eq. Qed.

Lemma digits_of_S f n acc :
  digits_of (S f) n acc
  = if n <? 10 then digit_char (n mod 10) :: acc
    else digits_of f (n / 10) (digit_char (n mod 10) :: acc).
Proof. reflexivity. Qed.

Lemma digits_of_spec f : forall n acc,
  0 <= n < 2 ^ Z.of_nat f ->
  digits_value (digits_of (S f) n acc)
    = n * 10 ^ Z.of_nat (List.length acc) + digits_value acc /\
  forallb is_digit (digits_of (S f) n acc) = forallb is_digit acc /\
  digits_of (S f) n acc <> [].
Proof.
  induction f as [|f IH]; intros n acc Hn.
  - simpl in Hn. assert (n = 0) by lia. subst. simpl.
    rewrite digits_value_cons. unfold digit_val, digit_char. simpl.
    repeat split; try discriminate; try reflexivity; lia.
  - rewrite digits_of_S.
    destruct (n <? 10) eqn:E.
    + rewrite digits_value_cons. unfold digit_val, digit_char. cbn [forallb].
      rewrite Z.ltb_lt in E. rewrite Z.mod_small by lia.
      unfold is_digit. replace ((48 <=? 48 + n) && (48 + n <=? 57)) with true
        by (symmetry; rewrite andb_true_iff, !Z.leb_le; lia).
      repeat split; try discriminate; try reflexivity; lia.
    +       assert (Hq : 0 <= n / 10 < 2 ^ Z.of_nat f).
      { rewrite Nat2Z.inj_succ, Z.pow_succ_r in Hn by lia.
        split; [apply Z.div_pos; lia|]. apply Z.div_lt_upper_bound; lia. }
      destruct (IH (n / 10) (digit_char (n mod 10) :: acc) Hq) as (H1 & H2 & H3).
      rewrite H1, H2. cbn [List.length forallb]. rewrite digits_value_cons.
      unfold digit_val, digit_char, is_digit.
      pose proof (Z.mod_pos_bound n 10 ltac:(lia)).
      replace ((48 <=? 48 + n mod 10) && (48 + n mod 10 <=? 57)) with true
        by (symmetry; rewrite andb_true_iff, !Z.leb_le; lia).
      rewrite Nat2Z.inj_succ, Z.pow_succ_r by lia.
      pose proof (Z.div_mod n 10 ltac:(lia)).
      repeat split; [nia|exact H3].
Qed.

Lemma filter_all {A} (f : A -> bool) l : forallb f l = true -> filter f l = l.
Proof.
  induction l as [|x l IH]; simpl; [reflexivity|].
  rewrite andb_true_iff. intros [-> Hl]. rewrite IH; auto.
Qed.

Lemma Z_to_jstr_digits n : 0 <= n ->
  forallb is_digit (Z_to_jstr n) = true /\ Z_to_jstr n <> [] /\
  digits_value (Z_to_jstr n) = n.
Proof.
  intros Hn. unfold Z_to_jstr.
  replace (n <? 0) with false by (symmetry; apply Z.ltb_ge; lia).
  rewrite Z.abs_eq by lia.
  destruct (digits_of_spec (Z.to_nat (Z.log2_up (n + 1))) n []) as (H1 & H2 & H3).
  - split; [lia|]. rewrite Z2Nat.id by apply Z.log2_up_nonneg.
    destruct (Z.eq_dec n 0) as [->|Hn0]; [simpl; lia|].
    pose proof (Z.log2_up_spec (n + 1) ltac:(lia)). lia.
  - rewrite H1, H2. simpl. unfold digits_value. simpl. repeat split; auto; lia.
Qed.

(** X1: [parseNumeric] returns [null] exactly when its input contains no
    ASCII digit; it keeps only the digits (so separators and units are
    ignored: the result is the same on the digits alone), and any number
    it returns is non-negative. *)
Theorem parseNumeric_digits (s : jstr) :
  (parseNumeric s = JNull <-> existsb is_digit s = false) /\
  parseNumeric s = parseNumeric (filter is_digit s) /\
  (forall n, parseNumeric s = JNum n -> 0 <= n).
Proof.
  unfold parseNumeric. rewrite filter_idem.
  destruct (jstr_eqb (filter is_digit s) []) eqn:Ef.
  - apply jstr_eqb_nil in Ef. pose proof Ef as Ex. apply filter_nil_existsb in Ex.
    rewrite Ex. destruct (jstr_eqb s []); repeat split; auto; discriminate.
  - assert (Hs : jstr_eqb s [] = false).
    { destruct s; [discriminate|reflexivity]. }
    rewrite Hs.
    assert (Hx : existsb is_digit s = true).
    { destruct (existsb is_digit s) eqn:E; auto.
      apply filter_nil_existsb in E. rewrite E in Ef. discriminate. }
    rewrite Hx. repeat split; try discriminate.
    intros n Hn. injection Hn as <-. apply digits_value_nonneg, forallb_filter.
Qed.

(** X2: reading back a number rendered by [String(n)] (as the fingerprint
    renders the mileage) gives the number: [parseNumeric] inverts
    [toString] on the non-negative safe integers, [0 <= n < 2^53], where
    [String] prints plain decimal digits and [parseInt] is exact. *)
Theorem parseNumeric_toString (n : Z) (Hn : 0 <= n < 2 ^ 53) :
  parseNumeric (toString (JNum n)) = JNum n.
Proof.
  simpl. destruct (Z_to_jstr_digits n (proj1 Hn)) as (H1 & H2 & H3).
  unfold parseNumeric. rewrite filter_all by exact H1.
  destruct (jstr_eqb (Z_to_jstr n) []) eqn:E.
  - apply jstr_eqb_nil in E. contradiction.
  - rewrite H3. reflexivity.
Qed.

Lemma parseNumeric_toString_witness :
  0 <= 85000 < 2 ^ 53 /\ parseNumeric (toString (JNum 85000)) = JNum 85000.
Proof. split; [lia|]. apply (parseNumeric_toString 85000). lia. Defined.

(** *** [parseRegistration] and [parsePower] *)

Lemma find_reg_digits s mm yyyy :
  find_reg s = Some (mm, yyyy) -> forallb is_digit (yyyy ++ mm) = true /\ List.length (yyyy ++ mm) = 6%nat.
Proof.
  induction s as [|a rest IH]; [discriminate|].
  rewrite find_reg_cons. destruct (reg_at (a :: rest) 0) eqn:R; [|exact IH].
  intros H. injection H as <- <-. unfold reg_at in R. cbn [Nat.add] in R.
  rewrite !andb_true_iff in R. destruct R as ((((((H0 & H1) & _) & H3) & H4) & H5) & H6).
  cbn [nth] in H0, H1, H3, H4, H5, H6.
  cbn [app forallb List.length]. rewrite H0, H1, H3, H4, H5, H6. auto.
Qed.

Lemma find_reg_slash s mm yyyy : find_reg s = Some (mm, yyyy) -> In 47 s.
Proof.
  induction s as [|a rest IH]; [discriminate|].
  rewrite find_reg_cons. destruct (reg_at (a :: rest) 0) eqn:R.
  - intros _. unfold reg_at in R. cbn [Nat.add] in R.
    rewrite !andb_true_iff in R. destruct R as ((((((_ & _) & H2) & _) & _) & _) & _).
    apply Z.eqb_eq in H2. rewrite <- H2.
    destruct (Nat.lt_ge_cases 2 (List.length (a :: rest))) as [Hl|Hl].
    + apply nth_In. exact Hl.
    + rewrite nth_overflow in H2 by exact Hl. discriminate.
  - intros H. right. exact (IH H).
Qed.

(** X3: [parseRegistration] is idempotent: whatever string it returns is
    returned unchanged when parsed again (a reformatted YYYYMM holds no
    [/] and so no further MM/YYYY occurrence). *)
Theorem parseRegistration_idempotent (s r : jstr) (H : parseRegistration s = JStr r) :
  parseRegistration r = JStr r.
Proof.
  unfold parseRegistration in *.
  destruct (jstr_eqb s []) eqn:E; [discriminate|].
  destruct (find_reg s) as [[mm yyyy]|] eqn:F; injection H as <-.
  - destruct (find_reg_digits s mm yyyy F) as [Hd Hl].
    destruct (jstr_eqb (yyyy ++ mm) []) eqn:E'.
    { apply jstr_eqb_nil in E'. rewrite E' in Hl. discriminate. }
    destruct (find_reg (yyyy ++ mm)) as [[mm' yyyy']|] eqn:F'; [|reflexivity].
    exfalso. apply find_reg_slash in F'.
    rewrite forallb_forall in Hd. specialize (Hd 47 F'). discriminate Hd.
  - rewrite E, F. reflexivity.
Qed.

Lemma parseRegistration_idempotent_witness :
  parseRegistration (js "03/2021") = JStr (js "202103") /\
  parseRegistration (js "202103") = JStr (js "202103").
Proof.
  split; [reflexivity|].
  apply (parseRegistration_idempotent (js "03/2021") (js "202103")). reflexivity.
Defined.

Lemma includes_app_startsWith p x : forall t, startsWith t p = true -> includes (x ++ t) p = true.
Proof.
  induction x as [|c x IH]; intros t Ht; cbn [app].
  - destruct t as [|z t]; [exact Ht|]. cbn [includes]. rewrite Ht. reflexivity.
  - cbn [includes].
rewrite IH by exact Ht. apply orb_true_r.
Qed.

Lemma drop_digits_suffix s : exists x, s = x ++ drop_digits s.
Proof.
  induction s as [|c s [x Hx]]; [exists []; reflexivity|]. simpl.
  destruct (is_digit c); [exists (c :: x); simpl; congruence|exists []; reflexivity].
Qed.

Lemma drop_ws_suffix s : exists x, s = x ++ drop_ws s.
Proof.
  induction s as [|c s [x Hx]]; [exists []; reflexivity|]. simpl.
  destruct (is_ws c); [exists (c :: x); simpl; congruence|exists []; reflexivity].
Qed.

Lemma take_digits_digits s : forallb is_digit (take_digits s) = true.
Proof.
  induction s as [|c s IH]; simpl; [reflexivity|].
  destruct (is_digit c) eqn:E; simpl; rewrite ?E; auto.
Qed.

Lemma find_num_unit_some unit s d :
  find_num_unit unit s = Some d -> includes s unit = true /\ forallb is_digit d = true.
Proof.
  induction s as [|c s IH]; [discriminate|]. simpl.
  destruct (is_digit c && startsWith (drop_ws (if is_digit c then drop_digits s else c :: s)) unit)
    eqn:E.
  - intros H. injection H as <-. split; [|apply (take_digits_digits (c :: s))].
    rewrite andb_true_iff in E. destruct E as [_ E].
    change (if is_digit c then drop_digits s else c :: s) with (drop_digits (c :: s)) in E.
    destruct (drop_digits_suffix (c :: s)) as [x Hx].
    destruct (drop_ws_suffix (drop_digits (c :: s))) as [y Hy].
    pose proof (includes_app_startsWith unit (x ++ y) _ E) as Hi.
    rewrite <- app_assoc, <- Hy, <- Hx in Hi. exact Hi.
  - intros H. destruct (IH H) as [Hi Hd]. rewrite Hi, orb_true_r. auto.
Qed.

(** X4: [parsePower] reports a kW value only for a text containing "kW"
    and a PS value only for a text containing "PS"; each value is [null]
    or a non-negative integer. *)
Theorem parsePower_units (s : jstr) :
  match fst (parsePower s) with
  | JNull => True
  | JNum n => includes s (js "kW") = true /\ 0 <= n
  | _ => False
  end /\
  match snd (parsePower s) with
  | JNull => True
  | JNum n => includes s (js "PS") = true /\ 0 <= n
  | _ => False
  end.
Proof.
  unfold parsePower. destruct (jstr_eqb s []); [simpl; auto|].
  destruct (find_num_unit (js "kW") s) as [d|] eqn:Ek;
  destruct (find_num_unit (js "PS") s) as [e|] eqn:Ep; simpl; auto;
  repeat match goal with
  | H : find_num_unit _ _ = Some _ |- _ =>
      apply find_num_unit_some in H; destruct H as [? ?]
  end;
  repeat split; auto; apply digits_value_nonneg; assumption.
Qed.

(** *** [normalizeValue] over the translation maps *)

Fixpoint nodupb (l : list jstr) : bool :=
  match l with
  | [] => true
  | x :: l' => negb (has l' x) && nodupb l'
  end.

Lemma has_In l x : has l x = true <-> In x l.
Proof.
  unfold has. rewrite existsb_exists. split.
  - intros (y & Hy & E). apply jstr_eqb_eq in E. subst. exact Hy.
  - intros Hx. exists x. split; [exact Hx|]. apply jstr_eqb_eq. reflexivity.
Qed.

Lemma nodupb_NoDup l : nodupb l = true -> NoDup l.
Proof.
  induction l as [|x l IH]; simpl; [constructor|].
  rewrite andb_true_iff, negb_true_iff. intros [Hx Hl]. constructor; auto.
  intros Hin. apply has_In in Hin. congruence.
Qed.

Lemma find_key (T : table) k v :
  NoDup (map fst T) -> In (k, v) T -> find (fun kv => jstr_eqb (fst kv) k) T = Some (k, v).
Proof.
  induction T as [|[k' v'] T IH]; simpl; [tauto|].
  intros Hnd Hin. inversion Hnd as [|? ? Hk Hnd']; subst.
  destruct (jstr_eqb k' k) eqn:E.
  - apply jstr_eqb_eq in E. subst. destruct Hin as [Heq|Hin]; [congruence|].
    exfalso. apply Hk. apply (in_map fst) in Hin. exact Hin.
  - destruct Hin as [Heq|Hin].
    + injection Heq as -> ->. assert (jstr_eqb k k = true) by (apply jstr_eqb_eq; reflexivity).
      congruence.
    + apply IH; assumption.
Qed.

Lemma normalizeValue_key lower (T : table) k v :
  NoDup (map fst T) -> In (k, v) T -> k <> [] -> v <> [] ->
  normalizeValue lower k T = Some (PStr v).
Proof.
  intros Hnd Hin Hk Hv. unfold normalizeValue, get.
  rewrite (find_key T k v Hnd Hin).
  destruct (jstr_eqb k []) eqn:E; [apply jstr_eqb_nil in E; contradiction|].
  unfold prop_truthy. destruct (jstr_eqb v []) eqn:E'; [apply jstr_eqb_nil in E'; contradiction|].
  reflexivity.
Qed.

Definition table_ok (T : table) : bool :=
  nodupb (map fst T)
  && forallb (fun kv => negb (jstr_eqb (fst kv) []) && negb (jstr_eqb (snd kv) [])) T.

Lemma table_ok_key lower T k v : table_ok T = true -> In (k, v) T ->
  normalizeValue lower k T = Some (PStr v).
Proof.
  unfold table_ok. rewrite andb_true_iff, forallb_forall. intros [Hnd Hne] Hin.
  specialize (Hne _ Hin). simpl in Hne. rewrite andb_true_iff, !negb_true_iff in Hne.
  destruct Hne as [Hk Hv].
  apply normalizeValue_key; [apply nodupb_NoDup; exact Hnd|exact Hin| |];
    intros ->; discriminate.
Qed.

(** X5: each key of each of the seven translation maps normalizes to its
    own value through the exact-match tier, whatever the host's
    lowercasing does: the maps' keys are distinct and their keys and
    values non-empty. *)
Theorem translation_keys_normalize (lower : jstr -> jstr) (T : table) (k v : jstr)
  (HT : In T [colorMap; interiorMaterialMap; fuelTypeMap; gearboxMap; bodyTypeMap;
              driveTypeMap; climateMap])
  (Hkv : In (k, v) T) :
  normalizeValue lower k T = Some (PStr v).
Proof.
  apply table_ok_key; [|exact Hkv].
  simpl in HT. repeat destruct HT as [<-|HT]; try contradiction; vm_compute; reflexivity.
Qed.

Lemma translation_keys_normalize_witness :
  In gearboxMap [colorMap; interiorMaterialMap; fuelTypeMap; gearboxMap; bodyTypeMap;
                 driveTypeMap; climateMap] /\
  In (js "Schaltung", js "MANUAL") gearboxMap /\
  normalizeValue Sample.asciiLower (js "Schaltung") gearboxMap = Some (PStr (js "MANUAL")).
Proof.
  split; [simpl; auto|]. split; [simpl; auto|].
  apply translation_keys_normalize; simpl; auto.
Defined.

(** X6: whatever the map and the lowering, a non-null result of
    [normalizeValue] is one of the map's values, or the inherited
    [Object.prototype] member named by the input itself. *)
Theorem normalizeValue_result (lower : jstr -> jstr) (value : jstr) (T : table) (p : prop)
  (H : normalizeValue lower value T = Some p) :
  (exists k s, In (k, s) T /\ p = PStr s) \/ (p = PProto value /\ In value objectProtoNames).
Proof.
  unfold normalizeValue, get in H.
  destruct (jstr_eqb value []); [discriminate|].
  assert (Hinex : forall f, match find f T with Some (_, v) => Some (PStr v)
                              | None => None end = Some p ->
                  exists k s, In (k, s) T /\ p = PStr s).
  { intros f Hf. destruct (find f T) as [[k s]|] eqn:E; [|discriminate].
    apply find_some in E. injection Hf as <-. exists k, s. split; [apply E|reflexivity]. }
  destruct (find (fun kv => jstr_eqb (fst kv) value) T) as [[k s]|] eqn:E.
  - destruct (prop_truthy (PStr s)).
    + left. injection H as <-. apply find_some in E. exists k, s. split; [apply E|reflexivity].
    + left. destruct (find (fun kv => jstr_eqb (lower (fst kv)) (lower value)) T)
        as [[k' s']|] eqn:E'.
      * injection H as <-. apply find_some in E'. exists k', s'. split; [apply E'|reflexivity].
      * exact (Hinex _ H).
  - destruct (existsb (jstr_eqb value) objectProtoNames) eqn:Ep.
    + right. injection H as <-. split; [reflexivity|].
      apply existsb_exists in Ep. destruct Ep as (y & Hy & Ey).
      apply jstr_eqb_eq in Ey. subst. exact Hy.
    + left. destruct (find (fun kv => jstr_eqb (lower (fst kv)) (lower value)) T)
        as [[k' s']|] eqn:E'.
      * injection H as <-. apply find_some in E'. exists k', s'. split; [apply E'|reflexivity].
      * exact (Hinex _ H).
Qed.

Lemma normalizeValue_result_witness :
  normalizeValue Sample.asciiLower (js "Benzin") fuelTypeMap = Some (PStr (js "PETROL")) /\
  ((exists k s, In (k, s) fuelTypeMap /\ PStr (js "PETROL") = PStr s) \/
   (PStr (js "PETROL") = PProto (js "Benzin") /\ In (js "Benzin") objectProtoNames)).
Proof.
  assert (H : normalizeValue Sample.asciiLower (js "Benzin") fuelTypeMap
              = Some (PStr (js "PETROL"))) by (vm_compute; reflexivity).
  split; [exact H|]. exact (normalizeValue_result Sample.asciiLower _ _ _ H).
Defined.

(** X7: each colour name of [colorMap], alone or followed by " Metallic"
    or " metallic", is parsed by [parseColor] as that colour, whatever the
    host's lowercasing does: the metallic suffix is removed before the
    exact lookup. *)
Theorem parseColor_table_colors (lower : jstr -> jstr) (k v : jstr)
  (Hkv : In (k, v) colorMap) :
  fst (parseColor lower k) = Some (PStr v) /\
  fst (parseColor lower (k ++ js " Metallic")) = Some (PStr v) /\
  fst (parseColor lower (k ++ js " metallic")) = Some (PStr v).
Proof.
  simpl in Hkv. repeat destruct Hkv as [Hkv|Hkv]; try contradiction;
    injection Hkv as <- <-; vm_compute; repeat split.
Qed.

Lemma parseColor_table_colors_witness :
  In (js "Rot", js "RED") colorMap /\
  fst (parseColor Sample.asciiLower (js "Rot Metallic")) = Some (PStr (js "RED")).
Proof.
  assert (HR : In (js "Rot", js "RED") colorMap) by (do 4 right; left; reflexivity).
  split; [exact HR|].
  destruct (parseColor_table_colors Sample.asciiLower (js "Rot") (js "RED") HR) as (_ & H & _).
  exact H.
Defined.

(** *** [generateSlug] *)

Lemma dash_runs_shape s : forall b,
  Forall (fun c => is_slug_char c = true \/ c = 45) (dash_runs b s) /\
  (forall x y, dash_runs b s <> x ++ 45 :: 45 :: y) /\
  (b = true -> forall y, dash_runs b s <> 45 :: y).
Proof.
  induction s as [|c s IH]; intros b; simpl.
  - repeat split; [constructor| |]; intros; [destruct x|]; discriminate.
  - destruct (is_slug_char c) eqn:Ec.
    + destruct (IH false) as (H1 & H2 & _).
      assert (Hc : c <> 45) by (intros ->; discriminate Ec).
      repeat split; [constructor; auto| |].
      * intros x y H; destruct x as [|z x]; simpl in H; injection H as Ha Hb; [congruence|].
        exact (H2 x y Hb).
      * intros _ y H. injection H as H. contradiction.
    + destruct (IH true) as (H1 & H2 & H3). destruct b; [exact (IH true)|].
      repeat split; [constructor; auto| |].
      * intros x y H; destruct x as [|z x]; simpl in H.
        -- injection H as Hb. exact (H3 eq_refl y Hb).
        -- injection H as Ha Hb. exact (H2 x y Hb).
      * discriminate.
Qed.

Lemma drop_lead_dash_cases l : drop_lead_dash l = l \/ l = 45 :: drop_lead_dash l.
Proof.
  destruct l as [|c l]; simpl; [left; reflexivity|].
  destruct (c =? 45) eqn:E; [right; apply Z.eqb_eq in E; subst; reflexivity|left; reflexivity].
Qed.

Definition no_double_dash (l : jstr) : Prop := forall x y, l <> x ++ 45 :: 45 :: y.

Lemma no_double_dash_rev l : no_double_dash l -> no_double_dash (rev l).
Proof.
  intros H x y E. apply (H (rev y) (rev x)).
  rewrite <- (rev_involutive l), E, rev_app_distr. simpl. rewrite <- !app_assoc. reflexivity.
Qed.

Lemma drop_lead_dash_props P l :
  Forall P l -> no_double_dash l ->
  Forall P (drop_lead_dash l) /\ no_double_dash (drop_lead_dash l) /\
  (forall y, drop_lead_dash l <> 45 :: y).
Proof.
  intros HP Hn. destruct (drop_lead_dash_cases l) as [E|E].
  - rewrite E. repeat split; auto. intros y Hy. subst l. simpl in E.
    pose proof (f_equal (@List.length Z) E) as L. simpl in L. lia.
  - remember (drop_lead_dash l) as d. rewrite E in HP. inversion HP; subst.
    repeat split; auto.
    + intros x y Hxy. apply (Hn (45 :: x) y). rewrite E, Hxy. reflexivity.
    + intros y Hy. apply (Hn [] y). rewrite E, Hy. reflexivity.
Qed.

Lemma strip_dashes_props (P : Z -> Prop) l :
  Forall P l -> no_double_dash l ->
  Forall P (strip_dashes l) /\ no_double_dash (strip_dashes l) /\
  (forall y, strip_dashes l <> 45 :: y) /\ (forall x, strip_dashes l <> x ++ [45]).
Proof.
  intros HP Hnd. unfold strip_dashes.
  destruct (drop_lead_dash_props P l HP Hnd) as (Pm & Nm & Hm).
  remember (drop_lead_dash l) as m eqn:Em. clear Em.
  destruct (drop_lead_dash_props P (rev m) (Forall_rev Pm) (no_double_dash_rev _ Nm))
    as (Pn & Nn & Hn).
  destruct (drop_lead_dash_cases (rev m)) as [E|E];
  remember (drop_lead_dash (rev m)) as n eqn:En; clear En.
  - split; [apply Forall_rev; exact Pn|]. split; [apply no_double_dash_rev; exact Nn|].
    split.
    + intros y Hy. rewrite E, rev_involutive in Hy. exact (Hm y Hy).
    + intros x Hx. apply (Hn (rev x)). rewrite <- (rev_involutive n), Hx, rev_app_distr.
      reflexivity.
  - split; [apply Forall_rev; exact Pn|]. split; [apply no_double_dash_rev; exact Nn|].
    split.
    + intros y Hy. apply (Hm (y ++ [45])).
      rewrite <- (rev_involutive m), E. simpl. rewrite Hy. reflexivity.
    + intros x Hx. apply (Hn (rev x)). rewrite <- (rev_involutive n), Hx, rev_app_distr.
      reflexivity.
Qed.

(** X8: every slug is [base-random], where [base] is made of the
    characters [a-z0-9] and of single dashes, neither starting nor ending
    with a dash (it is empty when the lowered text has no such character),
    whatever the host's lowercasing returns. *)
Theorem generateSlug_shape (lower : jstr -> jstr) (random : jstr) (make model year : jsval) :
  exists base, generateSlug lower random make model year = base ++ 45 :: random /\
    Forall (fun c => is_slug_char c = true \/ c = 45) base /\
    no_double_dash base /\ (forall y, base <> 45 :: y) /\ (forall x, base <> x ++ [45]).
Proof.
  unfold generateSlug. cbv zeta.
  match goal with |- context [strip_dashes (dash_runs false ?t)] =>
    destruct (dash_runs_shape t false) as (H1 & H2 & _);
    exists (strip_dashes (dash_runs false t)) end.
  split; [reflexivity|]. apply strip_dashes_props; assumption.
Qed.

(** *** The run report *)

Lemma processImages_log env slg imgs : forall i st acc,
  let st' := fst (processImages env slg imgs i st acc) in
  sl_dealers (syncLog st') = sl_dealers (syncLog st) /\
  listingsFound (syncLog st') = listingsFound (syncLog st) /\
  listingsNew (syncLog st') = listingsNew (syncLog st).
Proof.
  induction imgs as [|u us IH]; intros i st acc; simpl; [auto|].
  destruct (processAndUploadImage env u slg i) as [msg|[v|]];
    [| destruct (negb (jstr_eqb v [])) |];
  match goal with
  | |- context [processImages env slg us (S i) ?s ?a] => destruct (IH (S i) s a) as (-> & -> & ->)
  end; simpl; auto.
Qed.

(** The report fields that one detail page leaves unchanged. *)
Lemma scrapeListingDetails_log env ex url st :
  let st' := fst (scrapeListingDetails env ex url st) in
  sl_dealers (syncLog st') = sl_dealers (syncLog st) /\
  listingsFound (syncLog st') = listingsFound (syncLog st) /\
  listingsNew (syncLog st') = listingsNew (syncLog st) /\
  listingsSkipped (syncLog st') = listingsSkipped (syncLog st) /\
  errors (syncLog st') = errors (syncLog st).
Proof.
  unfold scrapeListingDetails. cbv zeta.
  destruct (loadDetails env url) as [msg|raw]; [simpl; auto|].
  destruct (parseMakeModel (r_title raw)) as [mk md].
  destruct (has ex _); [simpl; auto|].
  destruct (parseColor _ _); destruct (parseInterior _ _); destruct (parsePower _).
  match goal with
  | |- context [processImages env ?slg ?kept 0 (visit url st) []] =>
      pose proof (processImages_spec env slg kept 0 (visit url st) []) as HP;
      pose proof (processImages_log env slg kept 0 (visit url st) []) as HL;
      destruct (processImages env slg kept 0 (visit url st) []) as [st2 urls]
  end.
  destruct HP as (_ & _ & _ & H4 & H5 & _). simpl in HL |- *. destruct HL as (-> & -> & ->).
  rewrite H4, H5. auto.
Qed.

Definition scrapeErrorFor (urls : list jstr) (e : SyncError) : Prop :=
  exists u msg, e = ErrScrape u msg /\ In u urls.

Lemma scrapeListings_count env ex urls : forall st ls,
  let '(st', ls') := scrapeListings env ex urls st ls in
  exists new es k, ls' = ls ++ new /\
    errors (syncLog st') = errors (syncLog st) ++ es /\ Forall (scrapeErrorFor urls) es /\
    listingsSkipped (syncLog st') = (listingsSkipped (syncLog st) + k)%nat /\
    (List.length new + k + List.length es = List.length urls)%nat /\
    sl_dealers (syncLog st') = sl_dealers (syncLog st) /\
    listingsFound (syncLog st') = listingsFound (syncLog st) /\
    listingsNew (syncLog st') = listingsNew (syncLog st).
Proof.
  induction urls as [|u us IH]; intros st ls; simpl.
  - exists [], [], 0%nat. rewrite !app_nil_r. repeat split; auto.
  - pose proof (scrapeListingDetails_log env ex u st) as HL.
    destruct (scrapeListingDetails env ex u st) as [st1 r]. simpl in HL.
    destruct HL as (D1 & F1 & N1 & S1 & E1).
    assert (Hw : forall es, Forall (scrapeErrorFor us) es -> Forall (scrapeErrorFor (u :: us)) es).
    { intros es. apply Forall_impl. intros e (v & m & -> & Hv). exists v, m. simpl; auto. }
    destruct r as [msg|t|l].
    + specialize (IH (addError (ErrScrape u msg) st1) ls).
      destruct (scrapeListings env ex us _ ls) as [st' ls'].
      destruct IH as (new & es & k & -> & HE & HF & HS & HC & HD & HFd & HN).
      exists new, (ErrScrape u msg :: es), k. simpl in *.
      rewrite HE, HS, HD, HFd, HN, E1, S1, D1, F1, N1, <- app_assoc.
      repeat split; auto; [|lia]. constructor; [exists u, msg; simpl; auto|auto].
    + specialize (IH (incSkipped st1) ls).
      destruct (scrapeListings env ex us _ ls) as [st' ls'].
      destruct IH as (new & es & k & -> & HE & HF & HS & HC & HD & HFd & HN).
      exists new, es, (S k). simpl in *.
      rewrite HE, HS, HD, HFd, HN, E1, S1, D1, F1, N1. repeat split; auto; lia.
    + specialize (IH st1 (ls ++ [l])).
      destruct (scrapeListings env ex us _ _) as [st' ls'].
      destruct IH as (new & es & k & -> & HE & HF & HS & HC & HD & HFd & HN).
      exists (l :: new), es, k. simpl in *.
      rewrite HE, HS, HD, HFd, HN, E1, S1, D1, F1, N1, <- app_assoc. repeat split; auto; lia.
Qed.

Lemma insertAll_log env ls : forall st,
  sl_dealers (syncLog (insertAll env ls st)) = sl_dealers (syncLog st) /\
  listingsFound (syncLog (insertAll env ls st)) = listingsFound (syncLog st).
Proof.
  induction ls as [|l ls IH]; intros st; simpl; [auto|].
  destruct (insertListing env l); rewrite !(proj1 (IH _)), !(proj2 (IH _)); auto.
Qed.

(** X10: insertion records one insert error (with the listing's slug) per
    failed insert, in order, and counts every other listing as new: the
    new count and the error list together grow by exactly the number of
    listings passed to insertion. *)
Theorem insertAll_report env ls st :
  errors (syncLog (insertAll env ls st))
    = errors (syncLog st)
      ++ flat_map (fun l => match insertListing env l with
                            | Some msg => [ErrInsert msg (slug l)]
                            | None => []
                            end) ls /\
  listingsNew (syncLog (insertAll env ls st))
    = (listingsNew (syncLog st)
       + List.length (filter (fun l => match insertListing env l with
                                       | None => true | Some _ => false end) ls))%nat /\
  (listingsNew (syncLog (insertAll env ls st)) + List.length (errors (syncLog (insertAll env ls st)))
    = listingsNew (syncLog st) + List.length (errors (syncLog st)) + List.length ls)%nat.
Proof.
  revert st. induction ls as [|l ls IH]; intros st; simpl.
  - rewrite app_nil_r. auto.
  - destruct (insertListing env l) as [msg|];
      [destruct (IH (addError (ErrInsert msg (slug l)) st)) as (H1 & H2 & H3)
      |destruct (IH (incNew st)) as (H1 & H2 & H3)];
      rewrite H1, H2 in H3; rewrite H1, H2; simpl in *; rewrite ?length_app in *; simpl in *;
      rewrite <- ?app_assoc; repeat split; auto; lia.
Qed.

Lemma scrapeListingDetails_no_known env url st t :
  snd (scrapeListingDetails env [] url st) <> DSkipped t.
Proof.
  unfold scrapeListingDetails. cbv zeta.
  destruct (loadDetails env url) as [msg|raw]; [discriminate|].
  destruct (parseMakeModel (r_title raw)) as [mk md]. simpl has.
  destruct (parseColor _ _); destruct (parseInterior _ _); destruct (parsePower _).
  match goal with
  | |- context [processImages env ?slg ?kept 0 (visit url st) []] =>
      destruct (processImages env slg kept 0 (visit url st) []) as [st2 urls]
  end.
  discriminate.
Qed.

Lemma scrapeListings_no_known env urls : forall st ls,
  listingsSkipped (syncLog (fst (scrapeListings env [] urls st ls)))
  = listingsSkipped (syncLog st).
Proof.
  induction urls as [|u us IH]; intros st ls; simpl; [reflexivity|].
  pose proof (scrapeListingDetails_no_known env u st) as Hn.
  pose proof (scrapeListingDetails_log env [] u st) as (_ & _ & _ & HS & _).
  destruct (scrapeListingDetails env [] u st) as [st1 r]. simpl in Hn, HS.
  destruct r as [msg|t|l]; [|exfalso; exact (Hn t eq_refl)|]; rewrite IH; simpl; exact HS.
Qed.

Lemma dealerLoop_no_known env cfg ds : forall all st,
  listingsSkipped (syncLog (fst (dealerLoop env cfg [] ds all st)))
  = listingsSkipped (syncLog st).
Proof.
  induction ds as [|d ds IH]; intros all st; simpl; [reflexivity|].
  assert (HD : listingsSkipped (syncLog (fst (scrapeDealer env cfg [] (dealerUrl d) (addDealer d st))))
               = listingsSkipped (syncLog st)).
  { unfold scrapeDealer. destruct (searchListings env (dealerUrl d)); [reflexivity|].
    rewrite scrapeListings_no_known. reflexivity. }
  destruct (scrapeDealer env cfg [] (dealerUrl d) (addDealer d st)) as [st2 ls]. simpl in HD.
  destruct (_ >=? _); [simpl; exact HD|]. rewrite IH. simpl. exact HD.
Qed.

(** X11: when loading the known fingerprints fails, [main] runs with the
    empty set, so no candidate of the run is skipped as existing. *)
Theorem fingerprint_query_failure_skips_nothing env cfg (H : existingRows env = None) :
  match main env cfg with
  | Completed st _ => listingsSkipped (syncLog st) = 0%nat
  | Disabled => True
  end.
Proof.
  unfold main, getExistingFingerprints. rewrite H.
  destruct (negb (enabled cfg)); [exact I|].
  pose proof (dealerLoop_no_known env (applyOverride env cfg) (dealers (applyOverride env cfg)) [] st0)
    as HL.
  destruct (dealerLoop env _ [] _ [] st0) as [st ls]. simpl in HL.
  rewrite insertAll_skipped. exact HL.
Qed.

Definition failingRowsEnv : Env :=
  mkEnv Sample.asciiLower (fun _ => js "0a1b2c3d") (fun _ => inr [js "u1"])
    (fun _ => inr Sample.bmwRaw) (fun _ _ _ => ImgReturn None) (fun _ => None) None 0.

Lemma fingerprint_query_failure_skips_nothing_witness :
  existingRows failingRowsEnv = None /\
  match main failingRowsEnv dupConfig with
  | Completed st _ => listingsSkipped (syncLog st) = 0%nat
  | Disabled => True
  end.
Proof.
  split; [reflexivity|]. apply fingerprint_query_failure_skips_nothing. reflexivity.
Defined.

Lemma slice0_le {A} (l : list A) k : (List.length (slice0 l k) <= List.length l)%nat.
Proof. unfold slice0. destruct (0 <=? k); rewrite length_firstn; lia. Qed.

Lemma scrapeDealer_log env cfg ex url st :
  let st' := fst (scrapeDealer env cfg ex url st) in
  sl_dealers (syncLog st') = sl_dealers (syncLog st) /\
  listingsFound (syncLog st') = listingsFound (syncLog st) /\
  listingsNew (syncLog st') = listingsNew (syncLog st).
Proof.
  unfold scrapeDealer. destruct (searchListings env url); [simpl; auto|].
  pose proof (scrapeListings_count env ex (slice0 l (maxListingsPerDealer cfg)) st []) as H.
  destruct (scrapeListings env ex _ st []) as [st' ls].
  destruct H as (_ & _ & _ & _ & _ & _ & _ & _ & HD & HF & HN). simpl. auto.
Qed.

Lemma insertAll_new_bound env ls : forall st,
  (listingsNew (syncLog (insertAll env ls st)) <= listingsNew (syncLog st) + List.length ls)%nat.
Proof.
  induction ls as [|l ls IH]; intros st; simpl; [lia|].
  destruct (insertListing env l) as [msg|];
    [specialize (IH (addError (ErrInsert msg (slug l)) st))|specialize (IH (incNew st))];
    simpl in IH; lia.
Qed.

Definition dealerEntry (d : Dealer) : jstr * jstr := (dealerName d, dealerUrl d).

Lemma dealerLoop_report env cfg ex ds : forall all st,
  let '(st', res) := dealerLoop env cfg ex ds all st in
  (exists k, sl_dealers (syncLog st') = sl_dealers (syncLog st) ++ map dealerEntry (firstn k ds)) /\
  (List.length res + listingsFound (syncLog st) <= List.length all + listingsFound (syncLog st'))%nat /\
  listingsNew (syncLog st') = listingsNew (syncLog st).
Proof.
  induction ds as [|d ds IH]; intros all st; simpl.
  - split; [exists 0%nat; simpl; rewrite app_nil_r; reflexivity|]. split; [lia|reflexivity].
  - pose proof (scrapeDealer_log env cfg ex (dealerUrl d) (addDealer d st)) as (D & F & N).
    destruct (scrapeDealer env cfg ex (dealerUrl d) (addDealer d st)) as [st2 ls].
    simpl in D, F, N.
    destruct (Z.of_nat (List.length (all ++ ls)) >=? maxTotalListings cfg).
    + simpl. split; [exists 1%nat; simpl; rewrite D; reflexivity|].
      pose proof (slice0_le (all ++ ls) (maxTotalListings cfg)). rewrite length_app in *.
      rewrite F. split; [lia|exact N].
    + specialize (IH (all ++ ls) (addFound (List.length ls) st2)).
      destruct (dealerLoop env cfg ex ds (all ++ ls) _) as [st' res].
      destruct IH as ((k & Hk) & HL & HN). simpl in Hk, HL, HN.
      split; [exists (S k); simpl; rewrite Hk, D, <- app_assoc; reflexivity|].
      rewrite length_app in HL. rewrite F in HL. rewrite HN, N. split; [lia|reflexivity].
Qed.

(** *** The [page.evaluate] callbacks *)

Lemma has_cons x l y : has (x :: l) y = jstr_eqb y x || has l y.
Proof. reflexivity. Qed.

Lemma find_id_some s id :
  find_id s = Some id -> id <> [] /\ forallb is_digit id = true.
Proof.
  induction s as [|c s IH]; [discriminate|]. cbn [find_id].
  set (t := take_digits (skipn 3 s)).
  destruct (((c =? 63) || (c =? 38)) && startsWith s (js "id=")
            && negb (jstr_eqb t [])) eqn:E; [|exact IH].
  intros H. injection H as <-. rewrite !andb_true_iff, negb_true_iff in E.
  destruct E as [_ E]. split; [|apply take_digits_digits].
  intros Hn. rewrite Hn in E. discriminate.
Qed.

Lemma extractListingUrls_inv links : forall seen,
  let r := extractListingUrls seen links in
  NoDup (map snd r) /\
  (forall id, In id (map snd r) -> has seen id = false) /\
  Forall (fun p => fst p = detailsPrefix ++ snd p /\ snd p <> [] /\
                   forallb is_digit (snd p) = true) r /\
  (forall link id, In link links ->
     includes (hrefAttr link) (js "/fahrzeuge/details.html?id=") = true ->
     find_id (href link) = Some id -> has seen id = true \/ In id (map snd r)).
Proof.
  induction links as [|link rest IH]; intros seen; simpl.
  - repeat split; [constructor|tauto|constructor|tauto].
  - destruct (includes (hrefAttr link) (js "/fahrzeuge/details.html?id=")) eqn:Ea.
    2:{ destruct (IH seen) as (H1 & H2 & H3 & H4). repeat split; auto.
        intros l id [<-|Hl] Hi Hf; [congruence|exact (H4 l id Hl Hi Hf)]. }
    destruct (find_id (href link)) as [id|] eqn:Ef.
    2:{ destruct (IH seen) as (H1 & H2 & H3 & H4). repeat split; auto.
        intros l id' [<-|Hl] Hi Hf; [congruence|exact (H4 l id' Hl Hi Hf)]. }
    destruct (has seen id) eqn:Eh.
    + destruct (IH seen) as (H1 & H2 & H3 & H4). repeat split; auto.
      intros l id' [<-|Hl] Hi Hf; [left; congruence|exact (H4 l id' Hl Hi Hf)].
    + destruct (IH (id :: seen)) as (H1 & H2 & H3 & H4). simpl.
      repeat split.
      * constructor; [|exact H1]. intros Hin. specialize (H2 id Hin).
        rewrite has_cons in H2. assert (jstr_eqb id id = true) by (apply jstr_eqb_eq; reflexivity).
        rewrite H in H2. discriminate.
      * intros id' [<-|Hin]; [exact Eh|]. specialize (H2 id' Hin).
        rewrite has_cons, orb_false_iff in H2. apply H2.
      * constructor; [|exact H3]. simpl. destruct (find_id_some _ _ Ef). auto.
      * intros l id' [<-|Hl] Hi Hf; [right; left; congruence|].
        destruct (H4 l id' Hl Hi Hf) as [Hs|Hs]; [|right; right; exact Hs].
        rewrite has_cons, orb_true_iff in Hs. destruct Hs as [Hs|Hs]; [|left; exact Hs].
        apply jstr_eqb_eq in Hs. subst. right; left; reflexivity.
Qed.

(** X13: the search page's callback yields each listing id at most once,
    as the canonical details URL of that id (a non-empty run of digits),
    and every matching link that carries an id contributes that id. *)
Theorem extractListingUrls_spec (links : list Anchor) :
  NoDup (map snd (extractListingUrls [] links)) /\
  Forall (fun p => fst p = detailsPrefix ++ snd p /\ snd p <> [] /\
                   forallb is_digit (snd p) = true) (extractListingUrls [] links) /\
  (forall link id, In link links ->
     includes (hrefAttr link) (js "/fahrzeuge/details.html?id=") = true ->
     find_id (href link) = Some id -> In id (map snd (extractListingUrls [] links))).
Proof.
  destruct (extractListingUrls_inv links []) as (H1 & _ & H3 & H4).
  repeat split; auto. intros l id Hl Hi Hf.
  destruct (H4 l id Hl Hi Hf) as [H|H]; [discriminate|exact H].
Qed.

Lemma split_on_hd_nosep sep s : ~ In sep (hd [] (split_on sep s)).
Proof.
  induction s as [|c s IH]; simpl; [tauto|].
  destruct (c =? sep) eqn:E; [simpl; tauto|].
  destruct (split_on sep s) as [|p ps]; simpl in *.
  - intros [H|H]; [subst; rewrite Z.eqb_refl in E; discriminate|exact H].
  - intros [H|H]; [subst; rewrite Z.eqb_refl in E; discriminate|exact (IH H)].
Qed.

Definition ruleSuffix : jstr := js "?rule=mo-1600".

Lemma extractImages_inv srcs : forall seen,
  exists bases, extractImages seen srcs = map (fun b => b ++ ruleSuffix) bases /\
    NoDup bases /\ Forall (fun b => has seen b = false /\ ~ In 63 b) bases /\
    (List.length bases <= List.length srcs)%nat.
Proof.
  induction srcs as [|src rest IH]; intros seen; simpl.
  - exists []. repeat split; constructor.
  - destruct (negb (includes src imageMarker)).
    { destruct (IH seen) as (bs & H1 & H2 & H3 & H4). exists bs. repeat split; auto. }
    destruct (has seen (hd [] (split_on 63 src))) eqn:Eh.
    { destruct (IH seen) as (bs & H1 & H2 & H3 & H4). exists bs. repeat split; auto. }
    set (b := hd [] (split_on 63 src)) in *.
    destruct (IH (b :: seen)) as (bs & H1 & H2 & H3 & H4).
    exists (b :: bs). rewrite H1. repeat split; simpl; [| |lia].
    + constructor; [|exact H2]. intros Hin. rewrite Forall_forall in H3.
      destruct (H3 b Hin) as [Hb _]. rewrite has_cons in Hb.
      assert (Hbb : jstr_eqb b b = true) by (apply jstr_eqb_eq; reflexivity).
      rewrite Hbb in Hb. discriminate.
    + constructor; [split; [exact Eh|apply split_on_hd_nosep]|].
      eapply Forall_impl; [|exact H3]. intros x [Hx Hn]. split; [|exact Hn].
      rewrite has_cons, orb_false_iff in Hx. apply Hx.
Qed.

(** X14: the image callback yields each base URL at most once, each image
    URL is a base URL without [?] followed by [?rule=mo-1600], and it
    yields at most one URL per [img] element. *)
Theorem extractImages_spec (srcs : list jstr) :
  NoDup (extractImages [] srcs) /\
  Forall (fun u => exists base, u = base ++ ruleSuffix /\ ~ In 63 base) (extractImages [] srcs) /\
  (List.length (extractImages [] srcs) <= List.length srcs)%nat.
Proof.
  destruct (extractImages_inv srcs []) as (bs & -> & H2 & H3 & H4).
  repeat split.
  - clear H3 H4. induction bs as [|b bs IHb]; simpl; [constructor|].
    inversion H2; subst. constructor; [|apply IHb; auto].
    intros Hin. apply in_map_iff in Hin. destruct Hin as (x & Hx & Hin).
    apply app_inv_tail in Hx. subst. contradiction.
  - rewrite Forall_map. eapply Forall_impl; [|exact H3]. intros b [_ Hb]. exists b. auto.
  - rewrite length_map. exact H4.
Qed.

Lemma drop_ws_idem l : drop_ws (drop_ws l) = drop_ws l.
Proof.
  induction l as [|c l IH]; simpl; [reflexivity|].
  destruct (is_ws c) eqn:E; [exact IH|simpl; rewrite E; reflexivity].
Qed.

Lemma drop_ws_head l c t : drop_ws l = c :: t -> is_ws c = false.
Proof.
  induction l as [|d l IH]; simpl; [discriminate|].
  destruct (is_ws d) eqn:E; [exact IH|]. intros H. injection H as <- _. exact E.
Qed.

Lemma drop_ws_fixed l : (forall c t, l = c :: t -> is_ws c = false) -> drop_ws l = l.
Proof.
  destruct l as [|c l]; [reflexivity|]. intros H. simpl. rewrite (H c l eq_refl). reflexivity.
Qed.

Lemma trim_idem s : trim (trim s) = trim s.
Proof.
  unfold trim at 2 3. set (x := drop_ws s).
  destruct (drop_ws_suffix (rev x)) as [p Hp].
  assert (Hfix : drop_ws (rev (drop_ws (rev x))) = rev (drop_ws (rev x))).
  { apply drop_ws_fixed. intros c t Hct. apply (drop_ws_head s c (t ++ rev p)).
    fold x. rewrite <- (rev_involutive x), Hp, rev_app_distr, Hct. reflexivity. }
  unfold trim. rewrite Hfix, rev_involutive, drop_ws_idem. reflexivity.
Qed.

(** X15: [findValue] yields either [''] or a non-empty text shorter than
    150 code units with no surrounding whitespace. *)
Theorem findValue_shape (dts : list Dt) (labelText : jstr) :
  findValue dts labelText = [] \/
  (trim (findValue dts labelText) = findValue dts labelText /\
   (0 < List.length (findValue dts labelText) < 150)%nat).
Proof.
  unfold findValue.
  destruct (find _ dts) as [dt|]; [|left; reflexivity].
  destruct (nextSibling dt) as [[tagName text]|]; [|left; reflexivity].
  destruct (jstr_eqb tagName (js "DD")); [|left; reflexivity].
  cbv zeta. destruct (negb (jstr_eqb (trim text) []) && (List.length (trim text) <? 150)%nat) eqn:E;
    [|left; reflexivity].
  right. rewrite andb_true_iff, negb_true_iff, Nat.ltb_lt in E. destruct E as [E1 E2].
  split; [apply trim_idem|]. split; [|exact E2].
  destruct (trim text); [discriminate|simpl; lia].
Qed.

Lemma startsWith_app t p r : startsWith t p = true -> startsWith (t ++ r) p = true.
Proof.
  revert t. induction p as [|c p IH]; intros [|d t] H; simpl in *; auto; try discriminate.
  - destruct r; reflexivity.
  - rewrite andb_true_iff in *. destruct H as [H1 H2]. auto.
Qed.

Lemma includes_inv m p : includes m p = true -> exists z t, m = z ++ t /\ startsWith t p = true.
Proof.
  induction m as [|c m IH]; simpl.
  - intros H. exists [], []. auto.
  - rewrite orb_true_iff. intros [H|H].
    + exists [], (c :: m). auto.
    + destruct (IH H) as (z & t & -> & Ht). exists (c :: z), t. auto.
Qed.

Lemma includes_infix a m b p : includes m p = true -> includes (a ++ m ++ b) p = true.
Proof.
  intros H. destruct (includes_inv m p H) as (z & t & -> & Ht).
  rewrite <- !app_assoc, app_assoc. apply includes_app_startsWith, startsWith_app, Ht.
Qed.

Lemma trim_infix s : exists a b, s = a ++ trim s ++ b.
Proof.
  destruct (drop_ws_suffix s) as [a Ha].
  destruct (drop_ws_suffix (rev (drop_ws s))) as [c Hc].
  exists a, (rev c). unfold trim. rewrite <- rev_app_distr, <- Hc, rev_involutive.
  exact Ha.
Qed.

Lemma before_sep_prefix sep s : exists r, s = before_sep sep s ++ r.
Proof.
  induction s as [|c s [r Hr]]; cbn [before_sep]; [exists []; reflexivity|].
  destruct (startsWith (c :: s) sep); [exists (c :: s); reflexivity|].
  exists r. simpl. congruence.
Qed.

Lemma before_sep_excludes sep s : sep <> [] -> includes (before_sep sep s) sep = false.
Proof.
  intros Hsep. induction s as [|c s IH].
  - simpl. destruct sep; [contradiction|reflexivity].
  - cbn [before_sep]. destruct (startsWith (c :: s) sep) eqn:E.
    + simpl. destruct sep; [contradiction|reflexivity].
    + cbn [includes]. rewrite IH, orb_false_r.
      destruct (startsWith (c :: before_sep sep s) sep) eqn:E'; [|reflexivity].
      destruct (before_sep_prefix sep s) as [r Hr].
      apply (startsWith_app _ _ r) in E'.
      change ((c :: before_sep sep s) ++ r) with (c :: (before_sep sep s ++ r)) in E'.
      rewrite <- Hr in E'. congruence.
Qed.

(** X16: the title the detail callback extracts never contains "für"
    and has no surrounding whitespace. *)
Theorem titleOf_shape (documentTitle : jstr) :
  includes (titleOf documentTitle) fuer = false /\ trim (titleOf documentTitle) = titleOf documentTitle.
Proof.
  unfold titleOf. split; [|apply trim_idem].
  destruct (includes (trim (before_sep fuer documentTitle)) fuer) eqn:E; [|reflexivity].
  destruct (trim_infix (before_sep fuer documentTitle)) as (a & b & Hab).
  apply (includes_infix a _ b) in E. rewrite <- Hab in E.
  rewrite before_sep_excludes in E by discriminate. discriminate E.
Qed.

(** X17: every feature the detail callback collects is a trimmed text of
    2 to 79 code units, taken from an article whose heading mentions
    "Ausstattung". *)
Theorem featuresOf_shape (articles : list Article) (f : jstr)
  (H : In f (featuresOf articles)) :
  trim f = f /\ (1 < List.length f < 80)%nat /\
  exists art h, In art articles /\ heading art = Some h /\ includes h (js "Ausstattung") = true.
Proof.
  unfold featuresOf in H. apply in_flat_map in H. destruct H as (art & Hart & Hf).
  destruct (heading art) as [h|] eqn:Eh; [|contradiction].
  destruct (includes h (js "Ausstattung")) eqn:Ei; [|contradiction].
  apply in_flat_map in Hf. destruct Hf as (li & Hli & Hf). cbv zeta in Hf.
  destruct (negb (jstr_eqb (trim li) []) && (1 <? List.length (trim li))%nat
            && (List.length (trim li) <? 80)%nat) eqn:E; [|contradiction].
  destruct Hf as [<-|[]].
  rewrite !andb_true_iff, !Nat.ltb_lt in E. destruct E as ((_ & E1) & E2).
  split; [apply trim_idem|]. split; [lia|]. exists art, h. auto.
Qed.

Lemma featuresOf_shape_witness :
  In (js "Navigationssystem")
     (featuresOf [mkArticle (Some (js "Ausstattung")) [js " Navigationssystem "; js "A"]]) /\
  trim (js "Navigationssystem") = js "Navigationssystem" /\
  (1 < List.length (js "Navigationssystem") < 80)%nat /\
  exists art h, In art [mkArticle (Some (js "Ausstattung")) [js " Navigationssystem "; js "A"]] /\
    heading art = Some h /\ includes h (js "Ausstattung") = true.
Proof.
  assert (H : In (js "Navigationssystem")
     (featuresOf [mkArticle (Some (js "Ausstattung")) [js " Navigationssystem "; js "A"]]))
    by (vm_compute; left; reflexivity).
  split; [exact H|]. exact (featuresOf_shape _ _ H).
Defined.

Lemma find_customer_id_digits s : forallb is_digit s = true -> find_customer_id s = None.
Proof.
  induction s as [|c s IH]; [reflexivity|]. cbn [forallb]. rewrite andb_true_iff.
  intros [Hc Hs]. unfold is_digit in Hc. rewrite andb_true_iff, !Z.leb_le in Hc.
  assert (Hst : startsWith (c :: s) (js "customerId=") = false).
  { change (startsWith (c :: s) (99 :: js "ustomerId=") = false). cbn [startsWith].
    replace (99 =? c) with false by (symmetry; apply Z.eqb_neq; lia). reflexivity. }
  cbn [find_customer_id]. rewrite Hst. cbn [andb]. apply IH, Hs.
Qed.

(** X18: converting a dealer URL to its search URL is idempotent: the
    search URL built from a [customerId] holds no [customerId=] itself,
    so converting it again leaves it unchanged. *)
Theorem searchUrlOf_idempotent (dealerUrl : jstr) :
  searchUrlOf (searchUrlOf dealerUrl) = searchUrlOf dealerUrl.
Proof.
  unfold searchUrlOf at 2 3. destruct (find_customer_id dealerUrl) as [id|] eqn:E.
  - assert (Hd : forallb is_digit id = true).
    { clear -E. induction dealerUrl as [|c s IH]; [discriminate|]. cbn [find_customer_id] in E.
      set (t := take_digits (skipn 11 (c :: s))) in E.
      destruct (startsWith (c :: s) (js "customerId=") && negb (jstr_eqb t [])); [|exact (IH E)].
      injection E as <-. apply take_digits_digits. }
    unfold searchUrlOf. unfold searchPrefix. cbn [js list_ascii_of_string map app].
    cbn. rewrite find_customer_id_digits by exact Hd. reflexivity.
  - unfold searchUrlOf. rewrite E. reflexivity.
Qed.

(** *** [parseInterior] and the fingerprint's form *)

Lemma split_on_sep_app sep s t :
  split_on sep (s ++ sep :: t) = split_on sep s ++ split_on sep t.
Proof.
  induction s as [|c s IH]; simpl.
  - rewrite Z.eqb_refl. reflexivity.
  - rewrite IH. destruct (c =? sep); [reflexivity|].
    pose proof (split_on_nonempty sep s) as Hne.
    destruct (split_on sep s) as [|p ps]; [contradiction|reflexivity].
Qed.

Lemma interior_fold_found lower parts m c :
  opt_truthy m = true -> opt_truthy c = true ->
  fold_left (fun '(material, color) part =>
               let material := if opt_truthy material then material
                               else normalizeValue lower part interiorMaterialMap in
               let color := if opt_truthy color then color
                            else normalizeValue lower part colorMap in
               (material, color)) parts (m, c) = (m, c).
Proof.
  intros Hm Hc. induction parts as [|p ps IH]; simpl; [reflexivity|].
  rewrite Hm, Hc. exact IH.
Qed.

(** X19: once the comma parts of an interior text have given both a
    material and a colour, further comma parts are ignored. *)
Theorem parseInterior_found_stops (lower : jstr -> jstr) (s t : jstr)
  (Hm : opt_truthy (fst (parseInterior lower s)) = true)
  (Hc : opt_truthy (snd (parseInterior lower s)) = true) :
  parseInterior lower (s ++ 44 :: t) = parseInterior lower s.
Proof.
  unfold parseInterior in *.
  destruct (jstr_eqb s []) eqn:Es; [discriminate|].
  replace (jstr_eqb (s ++ 44 :: t) []) with false by (destruct s; [discriminate|reflexivity]).
  rewrite split_on_sep_app, map_app, fold_left_app.
  destruct (fold_left _ (map trim (split_on 44 s)) (None, None)) as [m c].
  apply interior_fold_found; assumption.
Qed.

Lemma parseInterior_found_stops_witness :
  opt_truthy (fst (parseInterior Sample.asciiLower (js "Leder, Schwarz"))) = true /\
  opt_truthy (snd (parseInterior Sample.asciiLower (js "Leder, Schwarz"))) = true /\
  parseInterior Sample.asciiLower (js "Leder, Schwarz" ++ 44 :: js " Rot")
  = parseInterior Sample.asciiLower (js "Leder, Schwarz").
Proof.
  assert (Hm : opt_truthy (fst (parseInterior Sample.asciiLower (js "Leder, Schwarz"))) = true)
    by (vm_compute; reflexivity).
  assert (Hc : opt_truthy (snd (parseInterior Sample.asciiLower (js "Leder, Schwarz"))) = true)
    by (vm_compute; reflexivity).
  split; [exact Hm|]. split; [exact Hc|].
  exact (parseInterior_found_stops Sample.asciiLower _ _ Hm Hc).
Defined.

Definition is_lower_hex (c : Z) : bool := is_digit c || ((97 <=? c) && (c <=? 102)).

Lemma le_bytes_range n : forall x,
  List.length (MD5.le_bytes n x) = n /\ Forall (fun b => 0 <= b < 256) (MD5.le_bytes n x).
Proof.
  induction n as [|n IH]; intros x; simpl; [split; [reflexivity|constructor]|].
  destruct (IH (Z.shiftr x 8)) as [H1 H2]. split; [rewrite H1; reflexivity|].
  constructor; [|exact H2].
  change 255 with (Z.ones 8). rewrite Z.land_ones by lia.
  apply Z.mod_pos_bound. lia.
Qed.

Lemma hex_byte_shape b : 0 <= b < 256 ->
  List.length (MD5.hex_byte b) = 2%nat /\ forallb is_lower_hex (MD5.hex_byte b) = true.
Proof.
  intros Hb. unfold MD5.hex_byte. split; [reflexivity|].
  assert (Hd : forall d, 0 <= d < 16 -> is_lower_hex (MD5.hex_digit d) = true).
  { intros d Hd. unfold is_lower_hex, is_digit, MD5.hex_digit.
    destruct (d <? 10) eqn:E; [rewrite Z.ltb_lt in E|rewrite Z.ltb_ge in E];
      rewrite orb_true_iff, !andb_true_iff, !Z.leb_le; lia. }
  simpl. rewrite !Hd; auto.
  - change 15 with (Z.ones 4). rewrite Z.land_ones by lia. apply Z.mod_pos_bound. lia.
  - rewrite Z.shiftr_div_pow2 by lia. change (2 ^ 4) with 16.
    split; [apply Z.div_pos; lia|apply Z.div_lt_upper_bound; lia].
Qed.

Lemma flat_map_hex_shape bytes :
  Forall (fun b => 0 <= b < 256) bytes ->
  List.length (flat_map MD5.hex_byte bytes) = (2 * List.length bytes)%nat /\
  forallb is_lower_hex (flat_map MD5.hex_byte bytes) = true.
Proof.
  induction 1 as [|b bs Hb Hbs IH]; [split; reflexivity|].
  cbn [flat_map]. destruct (hex_byte_shape b Hb) as [H1 H2]. destruct IH as [H3 H4].
  rewrite length_app, forallb_app, H1, H2, H3, H4. simpl. split; [lia|reflexivity].
Qed.

(** X20: every fingerprint is 32 lowercase hexadecimal digits, whatever
    the listing's fields. *)
Theorem fingerprint_hex (make model mileage firstRegistration : jsval) :
  List.length (generateFingerprint make model mileage firstRegistration) = 32%nat /\
  forallb is_lower_hex (generateFingerprint make model mileage firstRegistration) = true.
Proof.
  unfold generateFingerprint, MD5.md5_hex. cbv zeta.
  match goal with |- context [fold_left MD5.block ?bl MD5.init] =>
    destruct (fold_left MD5.block bl MD5.init) as [a b c d] end.
  destruct (le_bytes_range 4 a) as [La Fa]. destruct (le_bytes_range 4 b) as [Lb Fb].
  destruct (le_bytes_range 4 c) as [Lc Fc]. destruct (le_bytes_range 4 d) as [Ld Fd].
  destruct (flat_map_hex_shape (MD5.le_bytes 4 a ++ MD5.le_bytes 4 b ++ MD5.le_bytes 4 c
                                ++ MD5.le_bytes 4 d)) as [H1 H2].
  - repeat (apply Forall_app; split); assumption.
  - rewrite H1, H2, !length_app, La, Lb, Lc, Ld. split; reflexivity.
Qed.


(** *** What a detail page and a dealer yield, page by page *)

Lemma processImages_result env slg imgs i st acc :
  snd (processImages env slg imgs i st acc) = acc ++ uploaded env slg imgs i.
Proof.
  pose proof (processImages_spec env slg imgs i st acc) as H.
  destruct (processImages env slg imgs i st acc) as [st' acc']. apply H.
Qed.

(** The result of [scrapeListingDetails] does not depend on the run state. *)
Lemma scrapeListingDetails_result env ex url st st' :
  snd (scrapeListingDetails env ex url st) = snd (scrapeListingDetails env ex url st').
Proof.
  unfold scrapeListingDetails. cbv zeta.
  destruct (loadDetails env url) as [msg|raw]; [reflexivity|].
  destruct (parseMakeModel (r_title raw)) as [mk md].
  destruct (has ex _); [reflexivity|].
  destruct (parseColor _ _); destruct (parseInterior _ _); destruct (parsePower _).
  match goal with
  | |- context [processImages env ?slg ?kept 0 (visit url st) []] =>
      pose proof (processImages_result env slg kept 0 (visit url st) []) as H1;
      pose proof (processImages_result env slg kept 0 (visit url st') []) as H2;
      destruct (processImages env slg kept 0 (visit url st) []) as [s1 a1];
      destruct (processImages env slg kept 0 (visit url st') []) as [s2 a2]
  end.
  simpl in H1, H2. subst. reflexivity.
Qed.

(** What the detail page [u] yields, whatever the state of the run. *)
Definition detailOf (env : Env) (ex : list jstr) (u : jstr) : DetailResult :=
  snd (scrapeListingDetails env ex u st0).

Definition listingOf (env : Env) (ex : list jstr) (u : jstr) : list Listing :=
  match detailOf env ex u with DListing l => [l] | _ => [] end.

Definition scrapeErrorOf (env : Env) (ex : list jstr) (u : jstr) : list SyncError :=
  match detailOf env ex u with DThrow m => [ErrScrape u m] | _ => [] end.

Definition isSkipped (env : Env) (ex : list jstr) (u : jstr) : bool :=
  match detailOf env ex u with DSkipped _ => true | _ => false end.

(** Candidates whose fingerprint is, or is not, in the set [ex]. *)
Definition knownIn (env : Env) (ex : list jstr) (u : jstr) : bool :=
  match loadDetails env u with inr raw => has ex (rawFingerprint raw) | inl _ => false end.

Definition freshFor (env : Env) (ex : list jstr) (u : jstr) : bool :=
  match loadDetails env u with inr raw => negb (has ex (rawFingerprint raw)) | inl _ => false end.

Lemma detailOf_cases env ex u :
  match loadDetails env u with
  | inl msg => detailOf env ex u = DThrow msg
  | inr raw =>
      if has ex (rawFingerprint raw) then detailOf env ex u = DSkipped (r_title raw)
      else exists l, detailOf env ex u = DListing l /\ fingerprint l = rawFingerprint raw
  end.
Proof.
  unfold detailOf. destruct (loadDetails env u) as [msg|raw] eqn:Hl.
  - unfold scrapeListingDetails. rewrite Hl. reflexivity.
  - destruct (has ex (rawFingerprint raw)) eqn:Hh.
    + rewrite (scrapeListingDetails_skipped env ex u st0 raw Hl Hh). reflexivity.
    + destruct (scrapeListingDetails_new env ex u st0 raw Hl Hh) as (st' & l & H).
      rewrite H. exists l. split; [reflexivity|].
      destruct (scrapeListingDetails_listing env ex u st0 st' l H)
        as (raw' & Hl' & _ & _ & _ & _ & _ & Hf & _).
      rewrite Hl in Hl'. injection Hl' as <-. exact Hf.
Qed.

(** Each page has exactly one outcome: a listing, a skip or a scrape error. *)
Lemma outcome_once env ex u :
  (List.length (listingOf env ex u) + (if isSkipped env ex u then 1 else 0)
   + List.length (scrapeErrorOf env ex u) = 1)%nat.
Proof.
  unfold listingOf, isSkipped, scrapeErrorOf.
  destruct (detailOf env ex u); reflexivity.
Qed.

Lemma isSkipped_knownIn env ex u : isSkipped env ex u = knownIn env ex u.
Proof.
  pose proof (detailOf_cases env ex u) as H. unfold isSkipped, knownIn.
  destruct (loadDetails env u) as [msg|raw]; [rewrite H; reflexivity|].
  destruct (has ex (rawFingerprint raw)); [rewrite H; reflexivity|].
  destruct H as (l & -> & _). reflexivity.
Qed.

Lemma listingOf_fresh env ex u :
  List.length (listingOf env ex u) = (if freshFor env ex u then 1 else 0)%nat /\
  Forall (fun l => has ex (fingerprint l) = false) (listingOf env ex u).
Proof.
  pose proof (detailOf_cases env ex u) as H. unfold listingOf, freshFor.
  destruct (loadDetails env u) as [msg|raw]; [rewrite H; auto|].
  destruct (has ex (rawFingerprint raw)) eqn:Hh; [rewrite H; auto|].
  destruct H as (l & -> & Hf). simpl. split; [reflexivity|].
  constructor; [rewrite Hf; exact Hh|constructor].
Qed.

Lemma filter_isSkipped env ex vs :
  filter (isSkipped env ex) vs = filter (knownIn env ex) vs.
Proof. apply filter_ext. apply isSkipped_knownIn. Qed.

Lemma flat_map_listingOf env ex vs :
  List.length (flat_map (listingOf env ex) vs) = List.length (filter (freshFor env ex) vs) /\
  Forall (fun l => has ex (fingerprint l) = false) (flat_map (listingOf env ex) vs).
Proof.
  induction vs as [|u vs [IH1 IH2]]; simpl; [auto|].
  destruct (listingOf_fresh env ex u) as [H1 H2].
  rewrite length_app, H1, IH1. split; [|apply Forall_app; auto].
  destruct (freshFor env ex u); reflexivity.
Qed.

Lemma scrapeListings_trace env ex urls : forall st ls,
  let '(st', ls') := scrapeListings env ex urls st ls in
  ls' = ls ++ flat_map (listingOf env ex) urls /\
  errors (syncLog st') = errors (syncLog st) ++ flat_map (scrapeErrorOf env ex) urls /\
  listingsSkipped (syncLog st')
    = (listingsSkipped (syncLog st) + List.length (filter (isSkipped env ex) urls))%nat /\
  visited st' = visited st ++ urls /\
  sl_dealers (syncLog st') = sl_dealers (syncLog st) /\
  listingsFound (syncLog st') = listingsFound (syncLog st) /\
  listingsNew (syncLog st') = listingsNew (syncLog st).
Proof.
  induction urls as [|u us IH]; intros st ls; cbn [scrapeListings flat_map filter].
  - rewrite !app_nil_r. simpl. repeat split; lia.
  - pose proof (scrapeListingDetails_log env ex u st) as HL.
    pose proof (scrapeListingDetails_effects env ex u st) as [Hv _].
    pose proof (scrapeListingDetails_result env ex u st st0) as HR.
    unfold listingOf at 1, scrapeErrorOf at 1, isSkipped at 1, detailOf. rewrite <- HR.
    destruct (scrapeListingDetails env ex u st) as [st1 r]. cbn [fst snd] in HL, Hv |- *.
    destruct HL as (D1 & F1 & N1 & S1 & E1).
    destruct r as [msg|t|l];
      [specialize (IH (addError (ErrScrape u msg) st1) ls)
      |specialize (IH (incSkipped st1) ls)
      |specialize (IH st1 (ls ++ [l]))];
      destruct (scrapeListings env ex us _ _) as [st' ls'];
      destruct IH as (-> & HE & HS & HV & HD & HF & HN);
      rewrite HE, HS, HV, HD, HF, HN; simpl; rewrite ?E1, ?S1, ?D1, ?F1, ?N1, ?Hv;
      rewrite <- ?app_assoc; repeat split; simpl; auto.
Qed.

(** [scrapeDealer], page by page. *)
Lemma scrapeDealer_trace env cfg ex url st :
  let '(st', ls) := scrapeDealer env cfg ex url st in
  match searchListings env url with
  | inl msg => ls = [] /\ st' = addError (ErrDealer url msg) st
  | inr urls =>
      let kept := slice0 urls (maxListingsPerDealer cfg) in
      visited st' = visited st ++ kept /\
      ls = flat_map (listingOf env ex) kept /\
      errors (syncLog st') = errors (syncLog st) ++ flat_map (scrapeErrorOf env ex) kept /\
      listingsSkipped (syncLog st')
        = (listingsSkipped (syncLog st) + List.length (filter (isSkipped env ex) kept))%nat /\
      sl_dealers (syncLog st') = sl_dealers (syncLog st) /\
      listingsFound (syncLog st') = listingsFound (syncLog st) /\
      listingsNew (syncLog st') = listingsNew (syncLog st)
  end.
Proof.
  unfold scrapeDealer. destruct (searchListings env url) as [msg|urls]; [auto|].
  cbv zeta. pose proof (scrapeListings_trace env ex (slice0 urls (maxListingsPerDealer cfg)) st [])
    as H.
  destruct (scrapeListings env ex _ st []) as [st' ls].
  destruct H as (-> & HE & HS & HV & HD & HF & HN). simpl. repeat split; auto.
Qed.

(** What the dealer [d] yields, whatever the state of the run. *)
Definition dealerListings (env : Env) (cfg : Config) (ex : list jstr) (d : Dealer) : list Listing :=
  snd (scrapeDealer env cfg ex (dealerUrl d) st0).

Lemma scrapeDealer_result env cfg ex d st :
  snd (scrapeDealer env cfg ex (dealerUrl d) st) = dealerListings env cfg ex d.
Proof.
  unfold dealerListings.
  pose proof (scrapeDealer_trace env cfg ex (dealerUrl d) st) as H1.
  pose proof (scrapeDealer_trace env cfg ex (dealerUrl d) st0) as H2.
  destruct (scrapeDealer env cfg ex (dealerUrl d) st) as [s1 l1].
  destruct (scrapeDealer env cfg ex (dealerUrl d) st0) as [s2 l2].
  destruct (searchListings env (dealerUrl d)).
  - simpl. destruct H1 as [-> _], H2 as [-> _]. reflexivity.
  - simpl. destruct H1 as (_ & -> & _), H2 as (_ & -> & _). reflexivity.
Qed.

Lemma slice0_firstn {A} (l : list A) k : exists n, slice0 l k = firstn n l.
Proof. unfold slice0. destruct (0 <=? k); eexists; reflexivity. Qed.

Lemma insertAll_visited env ls : forall st,
  visited (insertAll env ls st) = visited st.
Proof.
  induction ls as [|l ls IH]; intros st; simpl; [reflexivity|].
  destruct (insertListing env l); rewrite IH; reflexivity.
Qed.

(** The candidates of a dealer loop: the pages it visits, in order. *)
Lemma dealerLoop_candidates env cfg ex ds : forall (pre : list Listing) (st : St),
  let '(st', res) := dealerLoop env cfg ex ds pre st in
  exists vs n,
    visited st' = visited st ++ vs /\
    listingsSkipped (syncLog st')
      = (listingsSkipped (syncLog st) + List.length (filter (isSkipped env ex) vs))%nat /\
    listingsFound (syncLog st')
      = (listingsFound (syncLog st) + List.length (flat_map (listingOf env ex) vs))%nat /\
    res = firstn n (pre ++ flat_map (listingOf env ex) vs).
Proof.
  induction ds as [|d ds IH]; intros pre st; cbn [dealerLoop].
  - exists [], (List.length pre). rewrite !app_nil_r, firstn_all. simpl. repeat split; lia.
  - pose proof (scrapeDealer_trace env cfg ex (dealerUrl d) (addDealer d st)) as HT.
    destruct (scrapeDealer env cfg ex (dealerUrl d) (addDealer d st)) as [st2 ls].
    assert (Hk : exists kept,
      visited st2 = visited st ++ kept /\
      ls = flat_map (listingOf env ex) kept /\
      listingsSkipped (syncLog st2)
        = (listingsSkipped (syncLog st) + List.length (filter (isSkipped env ex) kept))%nat /\
      listingsFound (syncLog st2) = listingsFound (syncLog st)).
    { destruct (searchListings env (dealerUrl d)) as [msg|urls].
      - destruct HT as [-> ->]. exists []. simpl. rewrite app_nil_r. auto.
      - destruct HT as (HV & Hls & _ & HS & _ & HF & _). exists (slice0 urls (maxListingsPerDealer cfg)).
        rewrite HV, HS, HF. auto. }
    clear HT. destruct Hk as (kept & HV & Hls & HS & HF).
    destruct (Z.of_nat (List.length (pre ++ ls)) >=? maxTotalListings cfg).
    + destruct (slice0_firstn (pre ++ ls) (maxTotalListings cfg)) as [n Hn].
      exists kept, n. rewrite Hn, <- Hls. simpl. rewrite HV, HS, HF. repeat split; lia.
    + specialize (IH (pre ++ ls) (addFound (List.length ls) st2)).
      destruct (dealerLoop env cfg ex ds (pre ++ ls) _) as [st' res].
      destruct IH as (vs & n & HV' & HS' & HF' & Hres).
      exists (kept ++ vs), n. simpl in HV', HS', HF'.
      rewrite HV', HS', HF', HV, HS, HF, Hres, Hls, !flat_map_app, filter_app, !length_app,
        <- !app_assoc.
      rewrite Hls in HF'. repeat split; lia.
Qed.

(** Where the dealer loop stops: at the first dealer whose listings bring
    the running total to the cap, or after the last dealer. *)
Lemma dealerLoop_stop env cfg ex ds : forall (pre : list Listing) (st : St),
  let cap := maxTotalListings cfg in
  let found j := pre ++ List.concat (map (dealerListings env cfg ex) (firstn j ds)) in
  let '(st', res) := dealerLoop env cfg ex ds pre st in
  exists k, (k <= List.length ds)%nat /\
    sl_dealers (syncLog st') = sl_dealers (syncLog st) ++ map dealerEntry (firstn k ds) /\
    (listingsFound (syncLog st') + List.length pre
     = listingsFound (syncLog st) + List.length (found k))%nat /\
    listingsNew (syncLog st') = listingsNew (syncLog st) /\
    (forall j, (0 < j < k)%nat -> Z.of_nat (List.length (found j)) < cap) /\
    ((k = List.length ds /\ ((0 < k)%nat -> Z.of_nat (List.length (found k)) < cap) /\
      res = found k) \/
     ((0 < k)%nat /\ cap <= Z.of_nat (List.length (found k)) /\ res = slice0 (found k) cap)).
Proof.
  induction ds as [|d ds IH]; intros pre st; cbv zeta; cbn [dealerLoop].
  - exists 0%nat. simpl. rewrite !app_nil_r. split; [lia|]. split; [reflexivity|].
    split; [lia|]. split; [reflexivity|]. split; [intros; lia|]. left. split; [reflexivity|].
    split; [intros; lia|reflexivity].
  - pose proof (scrapeDealer_log env cfg ex (dealerUrl d) (addDealer d st)) as (D & F & N).
    pose proof (scrapeDealer_result env cfg ex d (addDealer d st)) as HR.
    destruct (scrapeDealer env cfg ex (dealerUrl d) (addDealer d st)) as [st2 ls].
    cbn [fst snd] in D, F, N, HR. subst ls.
    set (dl := dealerListings env cfg ex) in *.
    assert (Hf : forall j, pre ++ List.concat (map dl (firstn (S j) (d :: ds)))
                           = (pre ++ dl d) ++ List.concat (map dl (firstn j ds))).
    { intros j. simpl. rewrite app_assoc. reflexivity. }
    destruct (Z.of_nat (List.length (pre ++ dl d)) >=? maxTotalListings cfg) eqn:E.
    + exists 1%nat. rewrite Z.geb_le in E. simpl in *. rewrite D, F, N, !app_nil_r.
      split; [lia|]. split; [reflexivity|]. split; [rewrite length_app; lia|].
      split; [reflexivity|]. split; [intros; lia|]. right.
      split; [lia|]. split; [exact E|reflexivity].
    + rewrite Z.geb_leb, Z.leb_gt in E.
      specialize (IH (pre ++ dl d) (addFound (List.length (dl d)) st2)). cbv zeta in IH.
      destruct (dealerLoop env cfg ex ds (pre ++ dl d) _) as [st' res].
      destruct IH as (k & Hk & HD & HF & HN & Hlt & Hcase).
      exists (S k). rewrite <- !app_assoc in Hcase, HF.
      cbn [addDealer addFound upd_log syncLog sl_dealers listingsNew listingsFound]
        in D, F, N, HD, HF, HN.
      rewrite HD, D, HN, N. cbn [firstn map List.concat List.length].
      split; [lia|]. split; [rewrite <- app_assoc; reflexivity|].
      split; [rewrite F in HF; repeat rewrite length_app in *; lia|].
      split; [reflexivity|]. split.
      * intros [|[|j]] Hj; [lia| |].
        -- simpl. rewrite app_nil_r. exact E.
        -- rewrite Hf. apply Hlt. lia.
      * destruct Hcase as [(-> & Hl & ->)|(Hk0 & Hc & ->)]; [left|right].
        -- split; [reflexivity|]. split; [|reflexivity]. intros _.
           destruct (List.length ds) as [|m] eqn:Em.
           ++ simpl. rewrite app_nil_r. exact E.
           ++ apply Hl. lia.
        -- split; [lia|]. split; [exact Hc|reflexivity].
Qed.

(** C5: the known set is read once, before the dealer loop, and is not
    changed by the run: in every completed run, each page visited
    (duplicates, on one dealer or on several, included) counts as skipped
    exactly when its fingerprint is in the set loaded at the start, and
    as found exactly when it loads and its fingerprint is not in that set,
    whatever the other candidates of the run; the listings passed to
    insertion are the first of those found, in order, none of them with
    a fingerprint of that set. *)
Theorem same_run_duplicates_both_processed env cfg st inserted
  (Hrun : main env cfg = Completed st inserted) :
  let ex := getExistingFingerprints env in
  listingsSkipped (syncLog st) = List.length (filter (knownIn env ex) (visited st)) /\
  listingsFound (syncLog st) = List.length (filter (freshFor env ex) (visited st)) /\
  (exists n, inserted = firstn n (flat_map (listingOf env ex) (visited st))) /\
  Forall (fun l => has ex (fingerprint l) = false) inserted.
Proof.
  cbv zeta. unfold main in Hrun. destruct (negb (enabled cfg)); [discriminate|].
  pose proof (dealerLoop_candidates env (applyOverride env cfg) (getExistingFingerprints env)
                (dealers (applyOverride env cfg)) [] st0) as H.
  destruct (dealerLoop env _ _ _ [] st0) as [st1 ls].
  injection Hrun as <- <-.
  destruct H as (vs & n & HV & HS & HF & Hres).
  rewrite insertAll_visited, insertAll_skipped, (proj2 (insertAll_log env ls st1)), HV, HS, HF.
  simpl. rewrite filter_isSkipped. destruct (flat_map_listingOf env (getExistingFingerprints env) vs)
    as [HL HA].
  split; [reflexivity|]. split; [exact HL|]. split; [exists n; exact Hres|].
  rewrite Hres. rewrite <- (firstn_skipn n (flat_map _ vs)) in HA.
  apply Forall_app in HA. exact (proj1 HA).
Qed.

Definition sameDealerEnv : Env :=
  Sample.env [] (fun _ => inr Sample.bmwRaw)
    (fun d => if jstr_eqb d (js "dealerA") then inr [js "u1"; js "u2"] else inr [js "u1"]).

Lemma same_run_duplicates_both_processed_witness :
  exists st inserted,
    main sameDealerEnv dupConfig = Completed st inserted /\
    listingsFound (syncLog st) = 3%nat /\ listingsSkipped (syncLog st) = 0%nat /\
    List.length inserted = 3%nat.
Proof.
  destruct (main sameDealerEnv dupConfig) as [|st inserted] eqn:H.
  - vm_compute in H. discriminate.
  - exists st, inserted. split; [reflexivity|].
    destruct (same_run_duplicates_both_processed sameDealerEnv dupConfig st inserted H)
      as (HS & HF & _ & _).
    pose proof H as H'. vm_compute in H'. injection H' as <- <-.
    vm_compute. repeat split.
Defined.

(** X9: [scrapeDealer] accounts for each candidate URL it keeps (the
    first [maxListingsPerDealer] of the search page) exactly once, in
    order: it visits those pages in order, its listings are the listings
    of those pages, its new errors the scrape errors of those pages, its
    skip count grows by the number of those pages skipped, and each page
    has exactly one of these three outcomes; a failing search page gives
    no listing and appends exactly one dealer error. *)
Theorem scrapeDealer_accounting env cfg ex url st :
  let '(st', ls) := scrapeDealer env cfg ex url st in
  match searchListings env url with
  | inl msg => ls = [] /\ st' = addError (ErrDealer url msg) st
  | inr urls =>
      let kept := slice0 urls (maxListingsPerDealer cfg) in
      visited st' = visited st ++ kept /\
      ls = flat_map (listingOf env ex) kept /\
      errors (syncLog st') = errors (syncLog st) ++ flat_map (scrapeErrorOf env ex) kept /\
      listingsSkipped (syncLog st')
        = (listingsSkipped (syncLog st) + List.length (filter (isSkipped env ex) kept))%nat /\
      Forall (fun u => List.length (listingOf env ex u) + (if isSkipped env ex u then 1 else 0)
                       + List.length (scrapeErrorOf env ex u) = 1)%nat kept
  end.
Proof.
  pose proof (scrapeDealer_trace env cfg ex url st) as H.
  destruct (scrapeDealer env cfg ex url st) as [st' ls].
  destruct (searchListings env url) as [msg|urls]; [exact H|].
  destruct H as (HV & Hls & HE & HS & _). repeat split; auto.
  apply Forall_forall. intros u _. apply outcome_once.
Qed.

(** X12: the report of a completed run: with [found j] the listings of
    the first [j] configured dealers, the run visits the first [k]
    dealers, in order, where [k] is the first dealer at which [found k]
    reaches the global cap (and the first [cap] of [found k] are passed
    to insertion), or all dealers when the cap is never reached (and all
    of [found k] are passed on); [listingsFound] is the size of
    [found k], and the number inserted is at most the number passed to
    insertion, which is at most [listingsFound]. *)
Theorem main_report env cfg :
  match main env cfg with
  | Disabled => enabled cfg = false
  | Completed st inserted =>
      let cfg' := applyOverride env cfg in
      let cap := maxTotalListings cfg' in
      let found j := List.concat (map (dealerListings env cfg' (getExistingFingerprints env))
                                 (firstn j (dealers cfg))) in
      exists k, (k <= List.length (dealers cfg))%nat /\
        sl_dealers (syncLog st) = map dealerEntry (firstn k (dealers cfg)) /\
        listingsFound (syncLog st) = List.length (found k) /\
        (forall j, (0 < j < k)%nat -> Z.of_nat (List.length (found j)) < cap) /\
        ((k = List.length (dealers cfg) /\
          ((0 < k)%nat -> Z.of_nat (List.length (found k)) < cap) /\ inserted = found k) \/
         ((0 < k)%nat /\ cap <= Z.of_nat (List.length (found k)) /\
          inserted = slice0 (found k) cap)) /\
        (listingsNew (syncLog st) <= List.length inserted <= listingsFound (syncLog st))%nat
  end.
Proof.
  unfold main. destruct (enabled cfg) eqn:E; [cbn [negb]|reflexivity].
  destruct (applyOverride_dealers env cfg) as [Hd _].
  pose proof (dealerLoop_stop env (applyOverride env cfg) (getExistingFingerprints env)
                (dealers (applyOverride env cfg)) [] st0) as H.
  cbv zeta in H |- *.
  destruct (dealerLoop env _ _ _ [] st0) as [st ls].
  cbv beta iota in H. rewrite Hd in H.
  destruct H as (k & Hk & HD & HF & HN & Hlt & Hcase).
  destruct (insertAll_log env ls st) as [HD' HF'].
  pose proof (insertAll_new_bound env ls st) as HI.
  exists k. rewrite HD', HF', HD. simpl in HF, HN |- *. rewrite HN in HI. simpl in HI.
  split; [exact Hk|]. split; [reflexivity|]. split; [lia|]. split; [exact Hlt|].
  cbn [app] in Hcase. split; [exact Hcase|].
  destruct Hcase as [(_ & _ & ->)|(_ & _ & ->)]; [lia|].
  pose proof (slice0_le (List.concat (map (dealerListings env (applyOverride env cfg)
                          (getExistingFingerprints env)) (firstn k (dealers cfg))))
                        (maxTotalListings (applyOverride env cfg))). lia.
Qed.
